(** * X-Ray core SDK: the execution trace model and its capture API

    A shallow embedding of [lib/xray.ts] (the [XRay] class and the
    interfaces it manipulates) together with the properties of the trace
    model: step numbering, the closing operations, the evaluation-step
    shorthand, construction and serialization.

    Conventions of the embedding.
    - A TypeScript optional property or parameter ([x?: T]) is an
      [option T]; [None] is JavaScript's [undefined].
    - [Date.now()] and [Math.random()] are reads of the [World]; every
      method runs in the [IO] monad, which threads the world and carries
      the completion of the call (normal, or a thrown error).
    - A method of the class takes the receiver as its last argument and, as
      the methods return [void] and mutate [this.execution] in place, its
      normal completion carries the receiver after the call.
    - [Date.now()] yields an integral number of milliseconds; it is a [Z],
      and the subtraction of two clock reads is the subtraction of [Z]
      (exact on doubles for all time values a clock can produce in
      practice).  Other numbers ([confidence], numbers inside payloads)
      are IEEE 754 binary64 values, that is, [float]. *)

From Stdlib Require Import ZArith String Ascii List Lia.
From Stdlib Require Import DecimalString DecimalPos DecimalZ.
From Stdlib Require Import PrimFloat.
From stdpp Require Import base tactics option list strings.

Import ListNotations.
Local Open Scope Z_scope.
#[local] Set Warnings "-register-all".

(* ===================================================================== *)
(** ** The JavaScript substrate *)
(* ===================================================================== *)

(** Values of type [any]: the payloads are opaque to the SDK, which stores
    them without looking inside. Objects keep their properties in insertion
    order. *)
Inductive JsValue : Type :=
| JsUndefined
| JsNull
| JsBoolean (b : bool)
| JsNumber (n : float)
| JsString (s : string)
| JsArray (items : list JsValue)
| JsObject (props : list (string * JsValue)).

(** [Record<string, any>] *)
Definition JsRecord : Type := list (string * JsValue).

(** Abrupt completions. The only one the class can meet is the [TypeError]
    of a property access on [undefined]. *)
Inductive JsError : Type :=
| TypeError (message : string).

Inductive Completion (A : Type) : Type :=
| Normal (a : A)
| Throw (e : JsError).

Arguments Normal {A} a.
Arguments Throw {A} e.

(** The part of the environment the class reads: the system clock, read by
    [Date.now()], and the random source. [random36 w n] is the text
    [Math.random().toString(36)] of the [n]-th draw: the digits of the
    rendering of a double in radix 36 are left to the engine by the
    language standard, so the world supplies the rendering itself. *)
Record World : Type := mkWorld {
  clock : nat -> Z;
  ticks : nat;
  random36 : nat -> string;
  draws : nat
}.

Definition IO (A : Type) : Type := World -> Completion A * World.

Definition ret {A : Type} (a : A) : IO A :=
  fun w => (Normal a, w).

Definition bind {A B : Type} (m : IO A) (k : A -> IO B) : IO B :=
  fun w =>
    match m w with
    | (Normal a, w') => k a w'
    | (Throw e, w') => (Throw e, w')
    end.

Definition throw {A : Type} (e : JsError) : IO A :=
  fun w => (Throw e, w).

Notation "'do' x <- m ; k" := (bind m (fun x => k))
  (at level 10, x name, m at level 100, k at level 200).

(** The time [Date.now()] returns in world [w], and the world after that
    read. *)
Definition current_time (w : World) : Z := clock w (ticks w).

Definition tick (w : World) : World :=
  mkWorld (clock w) (S (ticks w)) (random36 w) (draws w).

(** [Date.now()] *)
Definition Date_now : IO Z :=
  fun w => (Normal (current_time w), tick w).

(** The text [Math.random().toString(36)] evaluates to in world [w], and
    the world after that draw. *)
Definition current_random36 (w : World) : string := random36 w (draws w).

Definition draw (w : World) : World :=
  mkWorld (clock w) (ticks w) (random36 w) (S (draws w)).

(** [Math.random().toString(36)] *)
Definition Math_random_toString36 : IO string :=
  fun w => (Normal (current_random36 w), draw w).

(** [String(n)] for an integral number [n], as a template literal
    computes it for [Date.now()]: the decimal digits, with a leading minus
    sign for a negative number. *)
Definition Number_toString (n : Z) : string :=
  NilZero.string_of_int (Z.to_int n).

(** [s.substr(start, len)] for non-negative [start] and [len]. *)
Definition substr (s : string) (start len : nat) : string :=
  String.substring start len s.

(** [ToBoolean] on an optional string: [undefined] and the empty string
    are falsy, every other string is truthy. *)
Definition truthy (s : option string) : bool :=
  match s with
  | None => false
  | Some EmptyString => false
  | Some (String _ _) => true
  end.

(* ===================================================================== *)
(** ** The data model *)
(* ===================================================================== *)

(** ["pass" | "fail" | "select" | "filter" | "evaluate"] *)
Inductive Outcome : Type :=
| outcome_pass
| outcome_fail
| outcome_select
| outcome_filter
| outcome_evaluate.

Record XRayDecision : Type := mkDecision {
  outcome : Outcome;
  reason : string;
  confidence : option float
}.

Record XRayEvaluation : Type := mkEvaluation {
  evaluation_id : option string;
  passed : bool;
  evaluation_reason : string;
  evaluation_metadata : option JsRecord
}.

Record XRayStep : Type := mkStep {
  index : Z;
  step : string;
  timestamp : Z;
  input : JsRecord;
  output : JsRecord;
  reasoning : string;
  decision : option XRayDecision;
  metadata : option JsRecord
}.

Record ExecutionSummary : Type := mkSummary {
  totalSteps : Z;
  finalOutcome : option string
}.

(** ["completed" | "failed" | "in_progress"] *)
Inductive Status : Type :=
| completed
| failed
| in_progress.

(** [_id] is attached by the storage layer only; the class never reads or
    writes it. *)
Record XRayExecution : Type := mkExecution {
  _id : option string;
  executionId : string;
  name : string;
  status : Status;
  steps : list XRayStep;
  createdAt : Z;
  completedAt : option Z;
  duration : option Z;
  summary : option ExecutionSummary
}.

(** An evaluation seen as a value of type [any]: the object with the
    properties of the interface, the optional ones present when defined. *)
Definition evaluation_value (e : XRayEvaluation) : JsValue :=
  JsObject
    (match evaluation_id e with
     | Some i => [("id"%string, JsString i)]
     | None => []
     end ++
     [("passed"%string, JsBoolean (passed e));
      ("reason"%string, JsString (evaluation_reason e))] ++
     match evaluation_metadata e with
     | Some m => [("metadata"%string, JsObject m)]
     | None => []
     end).

(** Property assignments [this.execution.f = v] and [lastStep.f = v]. *)
Definition set_status (v : Status) (e : XRayExecution) : XRayExecution :=
  mkExecution (_id e) (executionId e) (name e) v (steps e) (createdAt e)
              (completedAt e) (duration e) (summary e).

Definition set_steps (v : list XRayStep) (e : XRayExecution) : XRayExecution :=
  mkExecution (_id e) (executionId e) (name e) (status e) v (createdAt e)
              (completedAt e) (duration e) (summary e).

Definition set_completedAt (v : Z) (e : XRayExecution) : XRayExecution :=
  mkExecution (_id e) (executionId e) (name e) (status e) (steps e)
              (createdAt e) (Some v) (duration e) (summary e).

Definition set_duration (v : Z) (e : XRayExecution) : XRayExecution :=
  mkExecution (_id e) (executionId e) (name e) (status e) (steps e)
              (createdAt e) (completedAt e) (Some v) (summary e).

Definition set_summary (v : ExecutionSummary) (e : XRayExecution)
  : XRayExecution :=
  mkExecution (_id e) (executionId e) (name e) (status e) (steps e)
              (createdAt e) (completedAt e) (duration e) (Some v).

Definition set_reasoning (v : string) (s : XRayStep) : XRayStep :=
  mkStep (index s) (step s) (timestamp s) (input s) (output s) v
         (decision s) (metadata s).

(* ===================================================================== *)
(** ** The class [XRay] *)
(* ===================================================================== *)

(** [private execution: XRayExecution] *)
Record XRay : Type := mkXRay {
  execution : XRayExecution
}.

(** The identifier generated when the caller gives none:
    [`exec_${Date.now()}_${Math.random().toString(36).substr(2, 9)}`]. *)
Definition generateExecutionId : IO string :=
  do t <- Date_now;
  do r <- Math_random_toString36;
  ret ("exec_" +:+ Number_toString t +:+ "_" +:+ substr r 2 9).

(** [constructor(name: string, executionId?: string)]. The properties of
    the object literal are evaluated in order: [executionId] first (the
    generated identifier reads the clock), [createdAt] last (a second read
    of the clock). *)
Definition constructor (name : string) (executionId : option string)
  : IO XRay :=
  do id <- (if truthy executionId
            then ret (default EmptyString executionId)
            else generateExecutionId);
  do now <- Date_now;
  ret (mkXRay (mkExecution None id name in_progress [] now None None None)).

(** [recordStep(stepName, input, output, reasoning, decision?, metadata?)] *)
Definition recordStep (stepName : string) (input output : JsRecord)
    (reasoning : string) (decision : option XRayDecision)
    (metadata : option JsRecord) (this : XRay) : IO XRay :=
  let e := execution this in
  do now <- Date_now;
  let step := mkStep (Z.of_nat (length (steps e)) + 1) stepName now
                     input output reasoning decision metadata in
  ret (mkXRay (set_steps (steps e ++ [step]) e)).

(** The parameter object of [recordEvaluationStep]. *)
Record EvaluationStepParams : Type := mkParams {
  params_step : string;
  params_input : JsRecord;
  params_evaluations : list XRayEvaluation;
  params_output : JsRecord;
  params_reasoning : string;
  params_confidence : option float
}.

(** [recordEvaluationStep(params)] *)
Definition recordEvaluationStep (params : EvaluationStepParams)
    (this : XRay) : IO XRay :=
  recordStep
    (params_step params)
    (params_input params)
    (params_output params)
    (params_reasoning params)
    (Some (mkDecision outcome_evaluate "Evaluation completed"
                      (params_confidence params)))
    (Some [("evaluations"%string,
            JsArray (map evaluation_value (params_evaluations params)))])
    this.

(** [markComplete(finalOutcome?)] *)
Definition markComplete (finalOutcome : option string) (this : XRay)
  : IO XRay :=
  let e := set_status completed (execution this) in
  do now <- Date_now;
  let e := set_completedAt now e in
  let e := set_duration (now - createdAt e) e in
  let e := set_summary (mkSummary (Z.of_nat (length (steps e))) finalOutcome)
                       e in
  ret (mkXRay e).

(** [markFailed(error?)]. [steps[steps.length - 1]] is a lookup by index:
    were it [undefined], the update of its [reasoning] would throw. *)
Definition markFailed (error : option string) (this : XRay) : IO XRay :=
  let e := set_status failed (execution this) in
  do now <- Date_now;
  let e := set_completedAt now e in
  let e := set_duration (now - createdAt e) e in
  if truthy error && (0 <? Z.of_nat (length (steps e)))
  then
    let last := Z.to_nat (Z.of_nat (length (steps e)) - 1) in
    match steps e !! last with
    | Some lastStep =>
        let lastStep :=
          set_reasoning (reasoning lastStep +:+ " [ERROR: " +:+
                         default EmptyString error +:+ "]") lastStep in
        ret (mkXRay (set_steps (<[last := lastStep]> (steps e)) e))
    | None =>
        throw (TypeError "Cannot read properties of undefined")
    end
  else ret (mkXRay e).

(** [serialize()]: the execution object itself. *)
Definition serialize (this : XRay) : IO (XRayExecution * XRay) :=
  ret (execution this, this).

(** [getExecution()] *)
Definition getExecution (this : XRay) : IO (XRayExecution * XRay) :=
  ret (execution this, this).

(** [createXRay(name, executionId?)] *)
Definition createXRay (name : string) (executionId : option string)
  : IO XRay :=
  constructor name executionId.

(* ===================================================================== *)
(** ** Sequences of calls on one builder *)
(* ===================================================================== *)

(** The arguments of one [recordStep] call. *)
Record StepArgs : Type := mkStepArgs {
  arg_stepName : string;
  arg_input : JsRecord;
  arg_output : JsRecord;
  arg_reasoning : string;
  arg_decision : option XRayDecision;
  arg_metadata : option JsRecord
}.

(** One call of a public method on a builder. *)
Inductive Call : Type :=
| CallRecordStep (a : StepArgs)
| CallRecordEvaluationStep (params : EvaluationStepParams)
| CallMarkComplete (finalOutcome : option string)
| CallMarkFailed (error : option string)
| CallSerialize
| CallGetExecution.

Definition perform (c : Call) (this : XRay) : IO XRay :=
  match c with
  | CallRecordStep a =>
      recordStep (arg_stepName a) (arg_input a) (arg_output a)
                 (arg_reasoning a) (arg_decision a) (arg_metadata a) this
  | CallRecordEvaluationStep params => recordEvaluationStep params this
  | CallMarkComplete finalOutcome => markComplete finalOutcome this
  | CallMarkFailed error => markFailed error this
  | CallSerialize => do r <- serialize this; ret (snd r)
  | CallGetExecution => do r <- getExecution this; ret (snd r)
  end.

(** The calls of a caller's program, in order, on the same builder. *)
Fixpoint perform_all (cs : list Call) (this : XRay) : IO XRay :=
  match cs with
  | [] => ret this
  | c :: cs' => do this' <- perform c this; perform_all cs' this'
  end.

(** A caller's whole use of the SDK: create the builder, then call it. *)
Definition session (name : string) (executionId : option string)
    (cs : list Call) : IO XRay :=
  do this <- createXRay name executionId; perform_all cs this.

(** Step numbers are dense: the step at position [i] (from 0) has index
    [i + 1]. *)
Definition dense (l : list XRayStep) : Prop :=
  forall (i : nat) (s : XRayStep), l !! i = Some s -> index s = Z.of_nat i + 1.

(** The step a [recordStep] call builds, given the number of steps already
    recorded and the time of the call. *)
Definition step_of (count : nat) (now : Z) (a : StepArgs) : XRayStep :=
  mkStep (Z.of_nat count + 1) (arg_stepName a) now (arg_input a)
         (arg_output a) (arg_reasoning a) (arg_decision a) (arg_metadata a).

(** The annotation [markFailed] appends to a reasoning text. *)
Definition error_suffix (error : string) : string :=
  " [ERROR: " +:+ error +:+ "]".

(* ===================================================================== *)
(** ** Statements of the specification and sample data *)
(* ===================================================================== *)

(** The execution after [markFailed], but for its steps. *)
Definition failed_with (l : list XRayStep) (now : Z) (e : XRayExecution)
  : XRayExecution :=
  mkExecution (_id e) (executionId e) (name e) failed l (createdAt e)
              (Some now) (Some (now - createdAt e)) (summary e).

(** The annotation rule of [markFailed] as the specification words it: an
    error that is provided, on an execution with at least one step, is
    appended to the reasoning of the last step. *)
Definition markFailed_annotation_claim (error : option string) (this : XRay)
    (w : World) : Prop :=
  forall (e : string) (l : list XRayStep) (s : XRayStep),
    error = Some e ->
    steps (execution this) = l ++ [s] ->
    exists (this' : XRay) (w' : World),
      markFailed error this w = (Normal this', w') /\
      steps (execution this') =
        l ++ [set_reasoning (reasoning s +:+ " [ERROR: " +:+ e +:+ "]") s].

(** The closing fields as the specification words them: all undefined
    while in progress, all defined afterwards. *)
Definition closing_fields_claim (e : XRayExecution) : Prop :=
  (status e = in_progress ->
   completedAt e = None /\ duration e = None /\ summary e = None) /\
  (status e <> in_progress ->
   is_Some (completedAt e) /\ is_Some (duration e) /\ is_Some (summary e)).

(** What holds of the closing fields in every state of a builder. *)
Definition closing_inv (e : XRayExecution) : Prop :=
  (status e = in_progress ->
   completedAt e = None /\ duration e = None /\ summary e = None) /\
  (status e <> in_progress ->
   is_Some (completedAt e) /\ is_Some (duration e)) /\
  (status e = completed -> is_Some (summary e)).

(** The decision and the metadata of an evaluation step, in the words of
    the specification. *)
Definition spec_evaluation_decision (confidence : option float)
  : XRayDecision :=
  {| outcome := outcome_evaluate;
     reason := "Evaluation completed";
     confidence := confidence |}.

Definition spec_evaluation_metadata (evaluations : list XRayEvaluation)
  : JsRecord :=
  [("evaluations"%string, JsArray (map evaluation_value evaluations))].

(** A world and a builder to run the methods on: a clock that starts at
    1704067200000 and advances by one millisecond per read. *)
Definition demo_world : World :=
  mkWorld (fun n => Z.of_nat n + 1704067200000) 0
          (fun _ => "0.k3j9x2m1qz8w"%string) 0.

Definition demo_step : XRayStep :=
  mkStep 1 "only" 1704067200001 [] [] "did it" None None.

Definition demo_builder : XRay :=
  mkXRay (mkExecution None "exec_demo" "Demo" in_progress [demo_step]
                      1704067200000 None None None).

(** The two [recordStep] calls of the first scenario of the specification;
    the confidence is the double nearest to 0.8. *)
Definition demo_args : list StepArgs :=
  [mkStepArgs "a" [("x"%string, JsNumber 1%float)]
              [("y"%string, JsNumber 2%float)] "did a" None None;
   mkStepArgs "b" [] [] "did b"
              (Some (mkDecision outcome_filter "r"
                                (Some 0x1.999999999999ap-1%float)))
              None].

(* ===================================================================== *)
(** ** Whole sessions: what the calls of a caller add up to *)
(* ===================================================================== *)

(** The calls that append a step. *)
Definition records_step (c : Call) : bool :=
  match c with
  | CallRecordStep _ | CallRecordEvaluationStep _ => true
  | _ => false
  end.

(** The calls that read the clock: all but the two getters. *)
Definition reads_clock (c : Call) : bool :=
  match c with
  | CallSerialize | CallGetExecution => false
  | _ => true
  end.

(** [s'] is [s] with some text added at the end of its reasoning, and
    nothing else changed. *)
Definition extends_reasoning (s s' : XRayStep) : Prop :=
  exists suffix : string, s' = set_reasoning (reasoning s +:+ suffix) s.

(** A clock that never goes back. *)
Definition monotone_clock (w : World) : Prop :=
  forall m n : nat, (m <= n)%nat -> clock w m <= clock w n.

(** A list of times in non-decreasing order. *)
Definition ascending (ts : list Z) : Prop :=
  forall (i j : nat) (a b : Z),
    (i <= j)%nat -> ts !! i = Some a -> ts !! j = Some b -> a <= b.

(** The status and the summary a sequence of calls leads to, read off the
    calls alone: [recorded] counts the steps so far, a [markComplete] sets
    the status and a summary of that count, a [markFailed] sets the status
    only, the other calls set neither. *)
Fixpoint closing_after (cs : list Call) (recorded : nat) (st : Status)
    (sm : option ExecutionSummary) : Status * option ExecutionSummary :=
  match cs with
  | [] => (st, sm)
  | CallRecordStep _ :: cs' => closing_after cs' (S recorded) st sm
  | CallRecordEvaluationStep _ :: cs' => closing_after cs' (S recorded) st sm
  | CallMarkComplete o :: cs' =>
      closing_after cs' recorded completed
                    (Some (mkSummary (Z.of_nat recorded) o))
  | CallMarkFailed _ :: cs' => closing_after cs' recorded failed sm
  | CallSerialize :: cs' => closing_after cs' recorded st sm
  | CallGetExecution :: cs' => closing_after cs' recorded st sm
  end.

(** Whether the character [c] occurs in [s]. *)
Fixpoint contains_char (c : ascii) (s : string) : bool :=
  match s with
  | EmptyString => false
  | String c' s' => Ascii.eqb c' c || contains_char c s'
  end.

(* ===================================================================== *)
(** ** The keyword generator of the demo pipeline ([lib/mock-data.ts]) *)
(* ===================================================================== *)

(** [s.split(sep)] for a separator of one character: the pieces between
    the occurrences of the separator, empty pieces included; the empty
    string has the single piece [""]. *)
Fixpoint split_char (sep : ascii) (s : string) : list string :=
  match s with
  | EmptyString => [EmptyString]
  | String c s' =>
      if Ascii.eqb c sep then EmptyString :: split_char sep s'
      else match split_char sep s' with
           | piece :: pieces => String c piece :: pieces
           | [] => [String c EmptyString]
           end
  end.

(** [items.join(sep)] *)
Fixpoint join (sep : string) (items : list string) : string :=
  match items with
  | [] => EmptyString
  | [item] => item
  | item :: rest => item +:+ sep +:+ join sep rest
  end.

(** [items.filter(Boolean)] on an array of strings and [undefined]s: the
    strings that are not empty. *)
Fixpoint filter_Boolean (items : list (option string)) : list string :=
  match items with
  | [] => []
  | item :: rest =>
      if truthy item then default EmptyString item :: filter_Boolean rest
      else filter_Boolean rest
  end.

Section MockData.

(** [String.prototype.toLowerCase], whose case mapping is the one of the
    Unicode tables of the engine. *)
Variable toLowerCase : string -> string.

(** [generateKeywords(title)]; [words[i]] past the end of the array is
    [undefined]. *)
Definition generateKeywords (title : string) : list string :=
  let words := split_char " " (toLowerCase title) in
  [join " " (filter_Boolean [words !! 0%nat; words !! 1%nat;
                             Some "bottle"%string]);
   join " " (filter_Boolean [Some "insulated"%string;
                             Some "water bottle"%string;
                             words !! 2%nat])].

End MockData.


(* ===================================================================== *)
(** ** The methods, call by call *)
(* ===================================================================== *)

Lemma recordStep_run (a : StepArgs) (this : XRay) (w : World) :
  perform (CallRecordStep a) this w =
  (Normal (mkXRay (set_steps
     (steps (execution this) ++
      [step_of (length (steps (execution this))) (current_time w) a])
     (execution this))),
   tick w).
Proof. reflexivity. Qed.

Lemma markComplete_run (finalOutcome : option string) (this : XRay)
    (w : World) :
  markComplete finalOutcome this w =
  (Normal (mkXRay
     (mkExecution (_id (execution this)) (executionId (execution this))
        (name (execution this)) completed (steps (execution this))
        (createdAt (execution this)) (Some (current_time w))
        (Some (current_time w - createdAt (execution this)))
        (Some (mkSummary (Z.of_nat (length (steps (execution this))))
                         finalOutcome)))),
   tick w).
Proof. reflexivity. Qed.

Lemma markFailed_quiet (error : option string) (this : XRay) (w : World) :
  truthy error = false \/ steps (execution this) = [] ->
  markFailed error this w =
  (Normal (mkXRay (failed_with (steps (execution this)) (current_time w)
                               (execution this))),
   tick w).
Proof.
  destruct this as [[i0 eid nm st l ca co du su]]; cbn [execution steps].
  intros [H | H]; unfold markFailed, bind, Date_now; cbn.
  - rewrite H. reflexivity.
  - subst l. cbn. rewrite andb_false_r. reflexivity.
Qed.

Lemma markFailed_annotates (error : string) (this : XRay) (w : World)
    (l : list XRayStep) (s : XRayStep) :
  error <> EmptyString ->
  steps (execution this) = l ++ [s] ->
  markFailed (Some error) this w =
  (Normal (mkXRay (failed_with
     (l ++ [set_reasoning (reasoning s +:+ error_suffix error) s])
     (current_time w) (execution this))),
   tick w).
Proof.
  destruct this as [[i0 eid nm st l0 ca co du su]]; cbn [execution steps].
  intros Herr Hsteps; subst l0. unfold markFailed, bind, Date_now; cbn.
  destruct error as [| c error']; [congruence |]. cbn [truthy andb].
  rewrite length_app. cbn [length].
  replace (0 <? Z.of_nat (length l + 1)%nat) with true
    by (symmetry; apply Z.ltb_lt; lia).
  replace (Z.to_nat (Z.of_nat (length l + 1)%nat - 1)) with (length l + 0)%nat
    by lia.
  rewrite lookup_app_r by lia.
  replace (length l + 0 - length l)%nat with 0%nat by lia. cbn [lookup list_lookup].
  rewrite insert_app_r. reflexivity.
Qed.

Lemma markFailed_run (error : option string) (this : XRay) (w : World) :
  exists l' : list XRayStep,
    markFailed error this w =
    (Normal (mkXRay (failed_with l' (current_time w) (execution this))),
     tick w) /\
    length l' = length (steps (execution this)) /\
    (forall (i : nat) (s : XRayStep),
        steps (execution this) !! i = Some s ->
        exists s', l' !! i = Some s' /\ index s' = index s).
Proof.
  destruct (truthy error) eqn:Htruthy.
  - destruct error as [[| c error'] |]; try discriminate.
    destruct (steps (execution this)) as [| s l _] eqn:Hsteps using rev_ind.
    + exists []. rewrite markFailed_quiet by (right; exact Hsteps).
      rewrite Hsteps. repeat split. intros i s Hi. destruct i; discriminate.
    + eexists. rewrite (markFailed_annotates _ _ _ l s) by (congruence || exact Hsteps).
      split; [reflexivity |]. split; [rewrite !length_app; reflexivity |].
      intros i s0 Hi. destruct (decide (i < length l)%nat) as [Hlt | Hge].
      * rewrite lookup_app_l in Hi |- * by exact Hlt. eauto.
      * rewrite lookup_app_r in Hi |- * by lia.
        destruct (i - length l)%nat as [| k]; cbn in Hi |- *.
        -- injection Hi as <-. eauto.
        -- destruct k; discriminate.
  - exists (steps (execution this)).
    rewrite markFailed_quiet by (left; exact Htruthy). eauto.
Qed.

Lemma constructor_generated (name : string) (executionId : option string)
    (w : World) :
  truthy executionId = false ->
  constructor name executionId w =
  (Normal (mkXRay (mkExecution None
     ("exec_" +:+ Number_toString (current_time w) +:+ "_" +:+
      substr (current_random36 w) 2 9)
     name in_progress [] (current_time (draw (tick w))) None None None)),
   tick (draw (tick w))).
Proof.
  intros H. unfold constructor, bind. rewrite H. reflexivity.
Qed.

Lemma constructor_supplied (name id : string) (w : World) :
  id <> EmptyString ->
  constructor name (Some id) w =
  (Normal (mkXRay (mkExecution None id name in_progress [] (current_time w)
                               None None None)),
   tick w).
Proof.
  intros H. destruct id as [| c id']; [congruence | reflexivity].
Qed.

Lemma constructor_run (name : string) (executionId : option string)
    (w : World) :
  exists (id : string) (now : Z) (w' : World),
    constructor name executionId w =
    (Normal (mkXRay (mkExecution None id name in_progress [] now
                                 None None None)),
     w').
Proof.
  destruct (truthy executionId) eqn:H.
  - destruct executionId as [[| c id'] |]; try discriminate.
    do 3 eexists. apply constructor_supplied. congruence.
  - do 3 eexists. apply constructor_generated. exact H.
Qed.

Lemma perform_all_cons (c : Call) (cs : list Call) (this this' : XRay)
    (w w' : World) :
  perform c this w = (Normal this', w') ->
  perform_all (c :: cs) this w = perform_all cs this' w'.
Proof.
  intros H. cbn [perform_all]. unfold bind. rewrite H. reflexivity.
Qed.

(** [recordStep] calls in a row append their steps in order, numbered on
    from the steps already there. *)
Lemma recordSteps_run (args : list StepArgs) :
  forall (this : XRay) (w : World),
  exists (l : list XRayStep) (w' : World),
    perform_all (map CallRecordStep args) this w =
    (Normal (mkXRay (set_steps (steps (execution this) ++ l)
                               (execution this))), w') /\
    length l = length args /\
    (forall (i : nat) (s : XRayStep),
        l !! i = Some s ->
        exists (a : StepArgs) (now : Z),
          args !! i = Some a /\
          s = step_of (length (steps (execution this)) + i) now a).
Proof.
  induction args as [| a args IH]; intros this w.
  - exists [], w. cbn [map perform_all]. rewrite app_nil_r.
    destruct this as [[i0 eid nm st l ca co du su]].
    repeat split. intros i s Hi. destruct i; discriminate.
  - cbn [map]. rewrite (perform_all_cons _ _ _ _ _ _ (recordStep_run a this w)).
    set (s0 := step_of (length (steps (execution this))) (current_time w) a).
    destruct (IH (mkXRay (set_steps (steps (execution this) ++ [s0])
                                    (execution this))) (tick w))
      as (l & w' & Hrun & Hlen & Hl).
    exists (s0 :: l), w'. split; [| split].
    + rewrite Hrun. cbn. rewrite <- app_assoc. reflexivity.
    + cbn [length]. rewrite Hlen. reflexivity.
    + intros i s Hi. destruct i as [| i'].
      * injection Hi as <-. exists a, (current_time w). split; [reflexivity |].
        unfold s0. rewrite Nat.add_0_r. reflexivity.
      * destruct (Hl i' s Hi) as (a' & now & Ha & Hs).
        exists a', now. split; [exact Ha |]. rewrite Hs. cbn.
        rewrite length_app. cbn [length]. f_equal. lia.
Qed.

(* ===================================================================== *)
(** ** Step numbering *)
(* ===================================================================== *)

(** C1. On a freshly constructed builder, [N] calls of [recordStep] all
    complete normally and leave [N] steps; the step at position [i]
    (0-based) has index [i + 1] and holds the arguments of the [i]-th call,
    so the indices are 1-based, strictly increasing and without gaps.
    Moreover one call, on any builder, appends exactly one step as the new
    last element, numbered with the step count before the call plus one. *)
Theorem recordStep_indices_dense (name : string) (executionId : option string)
    (args : list StepArgs) (w : World) :
  (exists (this : XRay) (w' : World),
      session name executionId (map CallRecordStep args) w
        = (Normal this, w') /\
      length (steps (execution this)) = length args /\
      dense (steps (execution this)) /\
      (forall (i j : nat) (si sj : XRayStep),
          steps (execution this) !! i = Some si ->
          steps (execution this) !! j = Some sj ->
          (i < j)%nat -> index si < index sj) /\
      (forall (i : nat) (s : XRayStep),
          steps (execution this) !! i = Some s ->
          exists a : StepArgs,
            args !! i = Some a /\
            step s = arg_stepName a /\ input s = arg_input a /\
            output s = arg_output a /\ reasoning s = arg_reasoning a /\
            decision s = arg_decision a /\ metadata s = arg_metadata a)) /\
  (forall (a : StepArgs) (this : XRay) (w0 : World),
      exists (this' : XRay) (s : XRayStep),
        recordStep (arg_stepName a) (arg_input a) (arg_output a)
                   (arg_reasoning a) (arg_decision a) (arg_metadata a)
                   this w0 = (Normal this', tick w0) /\
        steps (execution this') = steps (execution this) ++ [s] /\
        last (steps (execution this')) = Some s /\
        index s = Z.of_nat (length (steps (execution this))) + 1).
Proof.
  split.
  - destruct (constructor_run name executionId w) as (id & now & w1 & Hnew).
    destruct (recordSteps_run args
                (mkXRay (mkExecution None id name in_progress [] now
                                     None None None)) w1)
      as (l & w' & Hrun & Hlen & Hl).
    cbn [execution steps app length Nat.add] in Hrun, Hl.
    eexists _, w'. split.
    { unfold session, createXRay, bind. rewrite Hnew. exact Hrun. }
    cbn [execution set_steps steps].
    assert (Hdense : dense l).
    { intros i s Hi. destruct (Hl i s Hi) as (a & t & _ & ->). reflexivity. }
    split; [exact Hlen |]. split; [exact Hdense |]. split.
    + intros i j si sj Hi Hj Hij.
      rewrite (Hdense i si Hi), (Hdense j sj Hj). lia.
    + intros i s Hi. destruct (Hl i s Hi) as (a & t & Ha & ->).
      exists a. repeat split. exact Ha.
  - intros a this w0. eexists _, _. split; [reflexivity |].
    cbn [execution set_steps steps]. split; [reflexivity |].
    split; [apply last_snoc | reflexivity].
Qed.

Lemma recordStep_indices_dense_witness :
  exists (this : XRay) (w' : World),
    session "Demo" None (map CallRecordStep demo_args) demo_world
      = (Normal this, w') /\
    length (steps (execution this)) = 2%nat /\
    map index (steps (execution this)) = [1; 2].
Proof.
  destruct (recordStep_indices_dense "Demo" None demo_args demo_world)
    as ((this & w' & Hrun & Hlen & Hdense & _) & _).
  exists this, w'. split; [exact Hrun |]. split; [exact Hlen |].
  destruct (steps (execution this)) as [| s1 [| s2 [| s3 l]]];
    try discriminate.
  cbn [map]. rewrite (Hdense 0%nat s1), (Hdense 1%nat s2); reflexivity.
Defined.

(** The first scenario of the specification: two steps, then
    [markComplete("done")]. *)
Example scenario_completed :
  exists (this : XRay) (w' : World),
    session "Demo" None
            (map CallRecordStep demo_args ++ [CallMarkComplete (Some "done"%string)])
            demo_world = (Normal this, w') /\
    map index (steps (execution this)) = [1; 2] /\
    status (execution this) = completed /\
    summary (execution this) = Some (mkSummary 2 (Some "done"%string)).
Proof.
  eexists _, _. split; [vm_compute; reflexivity |]. repeat split.
Qed.

(** The second scenario: one step, then [markFailed("boom")]. *)
Example scenario_failed :
  exists (this : XRay) (w' : World),
    session "Demo" None
            [CallRecordStep (mkStepArgs "only" [] [] "did it" None None);
             CallMarkFailed (Some "boom"%string)]
            demo_world = (Normal this, w') /\
    map reasoning (steps (execution this)) = ["did it [ERROR: boom]"%string] /\
    status (execution this) = failed /\
    summary (execution this) = None.
Proof.
  eexists _, _. split; [vm_compute; reflexivity |]. repeat split.
Qed.

(* ===================================================================== *)
(** ** Closing an execution *)
(* ===================================================================== *)

(** C2, as stated, fails: an error message that is provided but empty is
    not appended. [markFailed("")] on a builder with one step leaves the
    reasoning of that step as it was, without the suffix [" [ERROR: ]"]. *)
Lemma markFailed_empty_error_not_appended :
  ~ markFailed_annotation_claim (Some EmptyString) demo_builder demo_world.
Proof.
  intros H.
  destruct (H EmptyString [] demo_step eq_refl eq_refl)
    as (this' & w' & Hrun & Hsteps).
  rewrite markFailed_quiet in Hrun by (left; reflexivity).
  injection Hrun as <- _. vm_compute in Hsteps. discriminate.
Qed.

(** C2, amended. [markFailed(error)] completes normally on every builder;
    it sets [status] to failed, [completedAt] to the current time and
    [duration] to [completedAt - createdAt], and leaves [summary] and the
    other fields of the execution as they were. If [error] is provided and
    is not the empty string, and there is at least one step, the last step
    gets the suffix [" [ERROR: " + error + "]"] on its reasoning and nothing
    else changes in the steps; if [error] is omitted or empty, or there is
    no step, the steps are unchanged. *)
Theorem markFailed_effect (error : option string) (this : XRay) (w : World) :
  exists this' : XRay,
    markFailed error this w = (Normal this', tick w) /\
    status (execution this') = failed /\
    completedAt (execution this') = Some (current_time w) /\
    duration (execution this') =
      Some (current_time w - createdAt (execution this)) /\
    summary (execution this') = summary (execution this) /\
    _id (execution this') = _id (execution this) /\
    executionId (execution this') = executionId (execution this) /\
    name (execution this') = name (execution this) /\
    createdAt (execution this') = createdAt (execution this) /\
    (forall (e : string) (l : list XRayStep) (s : XRayStep),
        error = Some e -> e <> EmptyString ->
        steps (execution this) = l ++ [s] ->
        steps (execution this') =
          l ++ [set_reasoning (reasoning s +:+ " [ERROR: " +:+ e +:+ "]") s]) /\
    (error = None \/ error = Some EmptyString \/ steps (execution this) = [] ->
     steps (execution this') = steps (execution this)).
Proof.
  destruct (markFailed_run error this w) as (l' & Hrun & _).
  eexists. split; [exact Hrun |]. cbn [execution failed_with status
    completedAt duration summary _id executionId name createdAt steps].
  repeat (split; [reflexivity |]). split.
  - intros e l s -> He Hsteps.
    rewrite (markFailed_annotates e this w l s He Hsteps) in Hrun.
    injection Hrun as Hl. symmetry. exact Hl.
  - intros Hquiet.
    rewrite markFailed_quiet in Hrun.
    + injection Hrun as Hl. symmetry. exact Hl.
    + destruct Hquiet as [-> | [-> | Hnil]]; [left | left | right]; done.
Qed.

Lemma markFailed_effect_witness :
  exists this' : XRay,
    markFailed (Some "boom"%string) demo_builder demo_world
      = (Normal this', tick demo_world) /\
    steps (execution this') =
      [set_reasoning "did it [ERROR: boom]" demo_step].
Proof.
  destruct (markFailed_effect (Some "boom"%string) demo_builder demo_world)
    as (this' & Hrun & _ & _ & _ & _ & _ & _ & _ & _ & Hlast & _).
  exists this'. split; [exact Hrun |].
  apply (Hlast "boom"%string [] demo_step); [reflexivity | discriminate |].
  reflexivity.
Defined.

(** C3. [markComplete(finalOutcome)] completes normally on every builder;
    it sets [status] to completed, [completedAt] to the current time,
    [duration] to [completedAt - createdAt] and [summary] to the number of
    steps at that moment with the outcome given ([None] when omitted);
    the steps and the other fields are as they were. *)
Theorem markComplete_effect (finalOutcome : option string) (this : XRay)
    (w : World) :
  exists this' : XRay,
    markComplete finalOutcome this w = (Normal this', tick w) /\
    status (execution this') = completed /\
    completedAt (execution this') = Some (current_time w) /\
    duration (execution this') =
      Some (current_time w - createdAt (execution this)) /\
    summary (execution this') =
      Some (mkSummary (Z.of_nat (length (steps (execution this'))))
                      finalOutcome) /\
    steps (execution this') = steps (execution this) /\
    _id (execution this') = _id (execution this) /\
    executionId (execution this') = executionId (execution this) /\
    name (execution this') = name (execution this) /\
    createdAt (execution this') = createdAt (execution this).
Proof.
  eexists. split; [apply markComplete_run |]. cbn. repeat split.
Qed.

(* ===================================================================== *)
(** ** The closing fields along the life of an execution *)
(* ===================================================================== *)

(** A call that completes by computation and does not touch the closing
    fields. *)
Local Ltac keeps_closing_fields :=
  eexists _, _; split; [reflexivity |]; cbn; split; [tauto |];
  split; [tauto | intros [HP | (o & Ho)]; [exact HP | discriminate]].

Lemma perform_closing (c : Call) (this : XRay) (w : World) :
  exists (this' : XRay) (w' : World),
    perform c this w = (Normal this', w') /\
    (closing_inv (execution this) -> closing_inv (execution this')) /\
    (is_Some (summary (execution this')) <->
     is_Some (summary (execution this)) \/
     exists o, c = CallMarkComplete o).
Proof.
  destruct c as [a | params | o | error | |]; try keeps_closing_fields.
  - eexists _, _. split; [apply markComplete_run |]. cbn. split.
    + intros _. unfold closing_inv. cbn.
      repeat split; try discriminate; eauto.
    + split; eauto.
  - destruct (markFailed_run error this w) as (l' & Hrun & _).
    eexists _, _. split; [exact Hrun |]. cbn. split.
    + intros (_ & _ & Hsum). unfold closing_inv. cbn.
      repeat split; try discriminate; eauto.
    + split; [tauto | intros [HP | (o & Ho)]; [exact HP | discriminate]].
Qed.

Lemma perform_all_closing (cs : list Call) :
  forall (this : XRay) (w : World),
  exists (this' : XRay) (w' : World),
    perform_all cs this w = (Normal this', w') /\
    (closing_inv (execution this) -> closing_inv (execution this')) /\
    (is_Some (summary (execution this')) <->
     is_Some (summary (execution this)) \/
     exists o, In (CallMarkComplete o) cs).
Proof.
  induction cs as [| c cs IH]; intros this w.
  - exists this, w. split; [reflexivity |]. split; [tauto |].
    split; [tauto | intros [H | (o & [])]; exact H].
  - destruct (perform_closing c this w) as (this1 & w1 & Hrun1 & Hinv1 & Hsum1).
    destruct (IH this1 w1) as (this' & w' & Hrun & Hinv & Hsum).
    exists this', w'. split; [| split].
    + rewrite (perform_all_cons _ _ _ _ _ _ Hrun1). exact Hrun.
    + tauto.
    + rewrite Hsum, Hsum1. cbn [In]. split.
      * intros [[H | (o & Hc)] | (o & Ho)]; subst; eauto.
      * intros [H | (o & [Hc | Ho])]; subst; eauto.
Qed.

(** C4, as stated, fails: after [markFailed] on a fresh builder the status
    is failed, yet no summary has ever been set. *)
Lemma failed_execution_without_summary :
  ~ (forall (this : XRay) (w' : World),
        session "Demo" None [CallMarkFailed (Some "boom"%string)] demo_world
          = (Normal this, w') ->
        closing_fields_claim (execution this)).
Proof.
  intros H.
  destruct (H _ _ eq_refl) as [_ Hclosed].
  destruct Hclosed as (_ & _ & (x & Hx)); [discriminate |].
  vm_compute in Hx. discriminate.
Qed.

(** C4, amended. Every sequence of calls on a freshly constructed builder
    completes normally, and in the state it reaches: while [status] is
    in progress, [completedAt], [duration] and [summary] are undefined;
    once [status] is not in progress, [completedAt] and [duration] are
    defined; when [status] is completed, [summary] is defined; and
    [summary] is defined exactly when [markComplete] is among the calls
    made. *)
Theorem closing_fields_by_status (name : string) (executionId : option string)
    (cs : list Call) (w : World) :
  exists (this : XRay) (w' : World),
    session name executionId cs w = (Normal this, w') /\
    (status (execution this) = in_progress ->
     completedAt (execution this) = None /\
     duration (execution this) = None /\
     summary (execution this) = None) /\
    (status (execution this) <> in_progress ->
     is_Some (completedAt (execution this)) /\
     is_Some (duration (execution this))) /\
    (status (execution this) = completed ->
     is_Some (summary (execution this))) /\
    (is_Some (summary (execution this)) <->
     exists o, In (CallMarkComplete o) cs).
Proof.
  destruct (constructor_run name executionId w) as (id & now & w1 & Hnew).
  destruct (perform_all_closing cs
              (mkXRay (mkExecution None id name in_progress [] now
                                   None None None)) w1)
    as (this & w' & Hrun & Hinv & Hsum).
  exists this, w'. split.
  { unfold session, createXRay, bind. rewrite Hnew. exact Hrun. }
  destruct Hinv as (Hopen & Hclosed & Hdone).
  { unfold closing_inv. cbn. repeat split; try discriminate; congruence. }
  repeat split; try tauto.
  intros Hs. apply Hsum in Hs. destruct Hs as [[x Hx] | Hs];
    [discriminate | exact Hs].
Qed.

Lemma closing_fields_by_status_witness :
  exists (this : XRay) (w' : World),
    session "Demo" None [CallMarkFailed (Some "boom"%string)] demo_world
      = (Normal this, w') /\
    is_Some (completedAt (execution this)) /\
    is_Some (duration (execution this)).
Proof.
  destruct (closing_fields_by_status "Demo" None
              [CallMarkFailed (Some "boom"%string)] demo_world)
    as (this & w' & Hrun & _ & Hclosed & _).
  exists this, w'. split; [exact Hrun |].
  apply Hclosed.
  vm_compute in Hrun. injection Hrun as <- _. discriminate.
Defined.

(* ===================================================================== *)
(** ** No guard on the status *)
(* ===================================================================== *)

(** C5. No method looks at [status]. On every builder, whatever its status
    (so also on one that is completed or failed), [recordStep] completes
    normally, appends a step numbered [steps.length + 1] and keeps the
    status and the closing fields; [markComplete] completes normally and
    sets [status], [completedAt], [duration] and [summary] anew;
    [markFailed] completes normally and sets [status], [completedAt] and
    [duration] anew. In particular a second closing call, of either kind
    after either kind, completes normally and the closing fields are those
    of the second call. *)
Theorem no_status_guard (this : XRay) (w : World) :
  (forall a : StepArgs,
      exists (this' : XRay) (s : XRayStep),
        recordStep (arg_stepName a) (arg_input a) (arg_output a)
                   (arg_reasoning a) (arg_decision a) (arg_metadata a)
                   this w = (Normal this', tick w) /\
        steps (execution this') = steps (execution this) ++ [s] /\
        index s = Z.of_nat (length (steps (execution this))) + 1 /\
        status (execution this') = status (execution this) /\
        completedAt (execution this') = completedAt (execution this) /\
        duration (execution this') = duration (execution this) /\
        summary (execution this') = summary (execution this)) /\
  (forall finalOutcome : option string,
      exists this' : XRay,
        markComplete finalOutcome this w = (Normal this', tick w) /\
        status (execution this') = completed /\
        completedAt (execution this') = Some (current_time w) /\
        duration (execution this') =
          Some (current_time w - createdAt (execution this)) /\
        summary (execution this') =
          Some (mkSummary (Z.of_nat (length (steps (execution this))))
                          finalOutcome)) /\
  (forall error : option string,
      exists this' : XRay,
        markFailed error this w = (Normal this', tick w) /\
        status (execution this') = failed /\
        completedAt (execution this') = Some (current_time w) /\
        duration (execution this') =
          Some (current_time w - createdAt (execution this))) /\
  (forall (first : Call) (finalOutcome : option string),
      (exists o, first = CallMarkComplete o) \/
      (exists e, first = CallMarkFailed e) ->
      exists (this1 this2 : XRay),
        perform first this w = (Normal this1, tick w) /\
        status (execution this1) <> in_progress /\
        markComplete finalOutcome this1 (tick w)
          = (Normal this2, tick (tick w)) /\
        status (execution this2) = completed /\
        completedAt (execution this2) = Some (current_time (tick w)) /\
        duration (execution this2) =
          Some (current_time (tick w) - createdAt (execution this)) /\
        summary (execution this2) =
          Some (mkSummary (Z.of_nat (length (steps (execution this))))
                          finalOutcome)) /\
  (forall (first : Call) (error : option string),
      (exists o, first = CallMarkComplete o) \/
      (exists e, first = CallMarkFailed e) ->
      exists (this1 this2 : XRay),
        perform first this w = (Normal this1, tick w) /\
        status (execution this1) <> in_progress /\
        markFailed error this1 (tick w) = (Normal this2, tick (tick w)) /\
        status (execution this2) = failed /\
        completedAt (execution this2) = Some (current_time (tick w)) /\
        duration (execution this2) =
          Some (current_time (tick w) - createdAt (execution this))).
Proof.
  assert (Hclose : forall first : Call,
             (exists o, first = CallMarkComplete o) \/
             (exists e, first = CallMarkFailed e) ->
             exists this1 : XRay,
               perform first this w = (Normal this1, tick w) /\
               status (execution this1) <> in_progress /\
               createdAt (execution this1) = createdAt (execution this) /\
               length (steps (execution this1))
                 = length (steps (execution this))).
  { intros first [(o & ->) | (e & ->)].
    - eexists. split; [apply markComplete_run |]. cbn.
      repeat split; discriminate.
    - destruct (markFailed_run e this w) as (l' & Hrun & Hlen & _).
      eexists. split; [exact Hrun |]. cbn.
      repeat split; [discriminate | exact Hlen]. }
  split; [| split; [| split; [| split]]].
  - intros a. eexists _, _. split; [reflexivity |]. cbn. repeat split.
  - intros finalOutcome. eexists. split; [apply markComplete_run |].
    cbn. repeat split.
  - intros error. destruct (markFailed_run error this w) as (l' & Hrun & _).
    eexists. split; [exact Hrun |]. cbn. repeat split.
  - intros first finalOutcome Hfirst.
    destruct (Hclose first Hfirst) as (this1 & Hrun1 & Hst & Hca & Hlen).
    eexists this1, _. split; [exact Hrun1 |]. split; [exact Hst |].
    split; [apply markComplete_run |]. cbn. rewrite Hca, Hlen.
    repeat split.
  - intros first error Hfirst.
    destruct (Hclose first Hfirst) as (this1 & Hrun1 & Hst & Hca & Hlen).
    destruct (markFailed_run error this1 (tick w)) as (l' & Hrun2 & _).
    eexists this1, _. split; [exact Hrun1 |]. split; [exact Hst |].
    split; [exact Hrun2 |]. cbn. rewrite Hca. repeat split.
Qed.

Lemma no_status_guard_witness :
  exists (this1 this2 : XRay),
    markComplete (Some "done"%string) demo_builder demo_world
      = (Normal this1, tick demo_world) /\
    markFailed (Some "boom"%string) this1 (tick demo_world)
      = (Normal this2, tick (tick demo_world)) /\
    status (execution this2) = failed /\
    completedAt (execution this2) = Some 1704067200001.
Proof.
  destruct (no_status_guard demo_builder demo_world)
    as (_ & _ & _ & _ & Hfail).
  destruct (Hfail (CallMarkComplete (Some "done"%string))
                  (Some "boom"%string))
    as (this1 & this2 & Hrun1 & _ & Hrun2 & Hst & Hco & _).
  { left. exists (Some "done"%string). reflexivity. }
  exists this1, this2. repeat split; assumption.
Defined.

(* ===================================================================== *)
(** ** The evaluation-step shorthand *)
(* ===================================================================== *)

(** C6. [recordEvaluationStep(params)] is [recordStep] with the decision
    [{ outcome: "evaluate", reason: "Evaluation completed", confidence }]
    and the metadata [{ evaluations }]: on every builder and in every world
    the two calls have the same completion and leave the same world. It
    keeps no state of its own: the call completes normally and the builder
    differs from the one before only by the step appended. *)
Theorem recordEvaluationStep_is_recordStep (params : EvaluationStepParams)
    (this : XRay) (w : World) :
  recordEvaluationStep params this w =
  recordStep (params_step params) (params_input params)
             (params_output params) (params_reasoning params)
             (Some (spec_evaluation_decision (params_confidence params)))
             (Some (spec_evaluation_metadata (params_evaluations params)))
             this w /\
  exists this' : XRay,
    recordEvaluationStep params this w = (Normal this', tick w) /\
    execution this' =
      set_steps
        (steps (execution this) ++
         [mkStep (Z.of_nat (length (steps (execution this))) + 1)
                 (params_step params) (current_time w)
                 (params_input params) (params_output params)
                 (params_reasoning params)
                 (Some (spec_evaluation_decision (params_confidence params)))
                 (Some (spec_evaluation_metadata
                          (params_evaluations params)))])
        (execution this).
Proof.
  split; [reflexivity |]. eexists. split; reflexivity.
Qed.

Lemma substring_length_le (s : string) :
  forall n m : nat, (String.length (String.substring n m s) <= m)%nat.
Proof.
  induction s as [| c s IH]; intros n m.
  - destruct n, m; cbn; lia.
  - destruct n as [| n'].
    + destruct m as [| m']; cbn; [lia |]. specialize (IH 0%nat m'). lia.
    + cbn. apply IH.
Qed.

Lemma prefix_append (s t : string) : String.prefix s (s +:+ t) = true.
Proof.
  induction s as [| c s IH].
  - destruct t; reflexivity.
  - change (String.prefix (String c s) (String c (s +:+ t)) = true).
    cbn [String.prefix]. destruct (ascii_dec c c); [exact IH | congruence].
Qed.

(* ===================================================================== *)
(** ** Construction *)
(* ===================================================================== *)

(** C7. Constructing a builder completes normally for every name and every
    optional identifier. The execution is in progress, has no steps and no
    closing fields, carries the name given, and its [createdAt] is the time
    the clock shows at the last read of the call (the only read when the
    identifier is supplied, the one after the identifier is generated
    otherwise). An identifier that is supplied and not empty is kept. When
    the identifier is omitted, the one generated is the prefix ["exec_"],
    the decimal digits of the clock, an underscore and at most nine
    characters of the random draw. *)
Theorem constructor_effect (label : string) (supplied : option string)
    (w : World) :
  exists (this : XRay) (w_created : World),
    constructor label supplied w = (Normal this, tick w_created) /\
    w_created = (if truthy supplied then w else draw (tick w)) /\
    status (execution this) = in_progress /\
    steps (execution this) = [] /\
    createdAt (execution this) = current_time w_created /\
    name (execution this) = label /\
    completedAt (execution this) = None /\
    duration (execution this) = None /\
    summary (execution this) = None /\
    (forall id : string,
        supplied = Some id -> id <> EmptyString ->
        executionId (execution this) = id) /\
    (supplied = None ->
     executionId (execution this) =
       "exec_" +:+ Number_toString (current_time w) +:+ "_" +:+
       substr (current_random36 w) 2 9 /\
     String.prefix "exec_" (executionId (execution this)) = true /\
     (String.length (substr (current_random36 w) 2 9) <= 9)%nat).
Proof.
  destruct (truthy supplied) eqn:Htruthy.
  - destruct supplied as [[| c id'] |]; try discriminate.
    exists (mkXRay (mkExecution None (String c id') label in_progress []
                                (current_time w) None None None)), w.
    split; [reflexivity |]. cbn. repeat split; try discriminate.
    intros id Hid _. congruence.
  - eexists _, (draw (tick w)).
    split; [apply constructor_generated; exact Htruthy |].
    cbn [execution status steps createdAt name completedAt duration summary
         executionId].
    do 8 (split; [reflexivity |]). split.
    + intros id -> Hid. destruct id; [congruence | discriminate].
    + intros _. split; [reflexivity |]. split; [apply prefix_append |].
      apply substring_length_le.
Qed.

Lemma constructor_effect_witness :
  exists (this : XRay) (w_created : World),
    constructor "Demo" None demo_world = (Normal this, tick w_created) /\
    executionId (execution this) = "exec_1704067200000_k3j9x2m1q"%string.
Proof.
  destruct (constructor_effect "Demo" None demo_world)
    as (this & w_created & Hrun & _ & _ & _ & _ & _ & _ & _ & _ & _ & Hid).
  exists this, w_created. split; [exact Hrun |].
  destruct (Hid eq_refl) as (-> & _). vm_compute. reflexivity.
Defined.

(** C10. An identifier supplied as the empty string is not kept: the
    constructor behaves as if none had been given, and the execution gets a
    generated identifier, which is not empty. *)
Theorem empty_executionId_discarded (label : string) (w : World) :
  constructor label (Some EmptyString) w = constructor label None w /\
  exists this : XRay,
    constructor label (Some EmptyString) w
      = (Normal this, tick (draw (tick w))) /\
    executionId (execution this) =
      "exec_" +:+ Number_toString (current_time w) +:+ "_" +:+
      substr (current_random36 w) 2 9 /\
    executionId (execution this) <> EmptyString.
Proof.
  split; [reflexivity |]. eexists.
  split; [apply constructor_generated; reflexivity |].
  cbn [execution executionId]. split; [reflexivity | discriminate].
Qed.

(* ===================================================================== *)
(** ** Serialization *)
(* ===================================================================== *)

(** C8. [serialize()] completes normally, leaves the builder and the world
    as they are, and returns the execution as it stands, field by field;
    two calls in a row return equal values. *)
Theorem serialize_projection (this : XRay) (w : World) :
  (exists snapshot : XRayExecution,
      serialize this w = (Normal (snapshot, this), w) /\
      _id snapshot = _id (execution this) /\
      executionId snapshot = executionId (execution this) /\
      name snapshot = name (execution this) /\
      status snapshot = status (execution this) /\
      steps snapshot = steps (execution this) /\
      createdAt snapshot = createdAt (execution this) /\
      completedAt snapshot = completedAt (execution this) /\
      duration snapshot = duration (execution this) /\
      summary snapshot = summary (execution this)) /\
  (do first <- serialize this;
   do second <- serialize (snd first);
   ret (fst first, fst second, snd second)) w =
  (Normal (execution this, execution this, this), w).
Proof.
  split; [| reflexivity].
  exists (execution this). repeat split.
Qed.

(* ===================================================================== *)
(** ** The summary of a failed execution *)
(* ===================================================================== *)

(** C9. [markFailed] neither assigns nor clears [summary]: after the call
    it is what it was before. So a [markFailed] that follows a
    [markComplete] leaves a failed execution which still carries the
    summary the earlier [markComplete] computed. *)
Theorem markFailed_keeps_summary (error : option string) (this : XRay)
    (w : World) :
  (exists this' : XRay,
      markFailed error this w = (Normal this', tick w) /\
      summary (execution this') = summary (execution this)) /\
  (forall finalOutcome : option string,
      exists this' : XRay,
        (do completed <- markComplete finalOutcome this;
         markFailed error completed) w = (Normal this', tick (tick w)) /\
        status (execution this') = failed /\
        summary (execution this') =
          Some (mkSummary (Z.of_nat (length (steps (execution this))))
                          finalOutcome)).
Proof.
  split.
  - destruct (markFailed_run error this w) as (l' & Hrun & _).
    eexists. split; [exact Hrun | reflexivity].
  - intros finalOutcome. unfold bind. rewrite markComplete_run.
    match goal with
    | |- context [markFailed error ?x ?w1] =>
        destruct (markFailed_run error x w1) as (l' & Hrun & _)
    end.
    eexists. split; [exact Hrun | split; reflexivity].
Qed.

(* ===================================================================== *)
(** ** Whole sessions *)
(* ===================================================================== *)

Lemma append_cons (c : ascii) (s t : string) :
  String c s +:+ t = String c (s +:+ t).
Proof. reflexivity. Qed.

Lemma append_empty_r (s : string) : s +:+ EmptyString = s.
Proof.
  induction s as [| c s IH]; [reflexivity |].
  rewrite append_cons, IH. reflexivity.
Qed.

Lemma append_assoc (s t u : string) : (s +:+ t) +:+ u = s +:+ (t +:+ u).
Proof.
  induction s as [| c s IH]; [reflexivity |].
  rewrite !append_cons, IH. reflexivity.
Qed.

Lemma extends_reasoning_refl (s : XRayStep) : extends_reasoning s s.
Proof.
  exists EmptyString. rewrite append_empty_r. destruct s; reflexivity.
Qed.

Lemma extends_reasoning_trans (s1 s2 s3 : XRayStep) :
  extends_reasoning s1 s2 -> extends_reasoning s2 s3 ->
  extends_reasoning s1 s3.
Proof.
  intros (x & ->) (y & ->). exists (x +:+ y). cbn.
  rewrite append_assoc. reflexivity.
Qed.

Lemma extends_reasoning_all (l : list XRayStep) :
  Forall2 extends_reasoning l l.
Proof.
  induction l; constructor; auto using extends_reasoning_refl.
Qed.

Lemma extends_reasoning_timestamps (l l' : list XRayStep) :
  Forall2 extends_reasoning l l' -> map timestamp l' = map timestamp l.
Proof.
  induction 1 as [| s s' l l' (x & ->) _ IH]; cbn; [reflexivity |].
  now rewrite IH.
Qed.

Lemma extends_reasoning_indices (l l' : list XRayStep) :
  Forall2 extends_reasoning l l' -> map index l' = map index l.
Proof.
  induction 1 as [| s s' l l' (x & ->) _ IH]; cbn; [reflexivity |].
  now rewrite IH.
Qed.

(** [markFailed] changes the steps by extending reasonings only. *)
Lemma markFailed_extends (error : option string) (this : XRay) (w : World) :
  exists l' : list XRayStep,
    markFailed error this w =
    (Normal (mkXRay (failed_with l' (current_time w) (execution this))),
     tick w) /\
    Forall2 extends_reasoning (steps (execution this)) l'.
Proof.
  destruct (truthy error) eqn:Htruthy.
  - destruct error as [[| c error'] |]; try discriminate.
    destruct (steps (execution this)) as [| s l _] eqn:Hsteps using rev_ind.
    + exists []. rewrite markFailed_quiet by (right; exact Hsteps).
      rewrite Hsteps. split; [reflexivity | constructor].
    + eexists.
      rewrite (markFailed_annotates _ _ _ l s) by (congruence || exact Hsteps).
      split; [reflexivity |]. apply Forall2_app.
      * apply extends_reasoning_all.
      * constructor; [| constructor]. eexists. reflexivity.
  - exists (steps (execution this)).
    rewrite markFailed_quiet by (left; exact Htruthy).
    split; [reflexivity | apply extends_reasoning_all].
Qed.

(** What one call does, whichever it is. *)
Lemma perform_cases (c : Call) (this : XRay) (w : World) :
  exists (this' : XRay) (l' extra : list XRayStep),
    perform c this w =
      (Normal this', if reads_clock c then tick w else w) /\
    _id (execution this') = _id (execution this) /\
    executionId (execution this') = executionId (execution this) /\
    name (execution this') = name (execution this) /\
    createdAt (execution this') = createdAt (execution this) /\
    steps (execution this') = l' ++ extra /\
    Forall2 extends_reasoning (steps (execution this)) l' /\
    (if records_step c
     then exists s : XRayStep,
            extra = [s] /\
            index s = Z.of_nat (length (steps (execution this))) + 1 /\
            timestamp s = current_time w
     else extra = []) /\
    ((status (execution this') = status (execution this) /\
      completedAt (execution this') = completedAt (execution this) /\
      duration (execution this') = duration (execution this)) \/
     (reads_clock c = true /\
      status (execution this') <> in_progress /\
      completedAt (execution this') = Some (current_time w) /\
      duration (execution this') =
        Some (current_time w - createdAt (execution this)))) /\
    (summary (execution this') = summary (execution this) \/
     exists o : option string,
       c = CallMarkComplete o /\
       summary (execution this') =
         Some (mkSummary (Z.of_nat (length (steps (execution this)))) o)) /\
    ((exists e : option string, c = CallMarkFailed e) \/
     l' = steps (execution this)).
Proof.
  destruct c as [a | params | o | error | |].
  - eexists _, (steps (execution this)), [_]. split; [reflexivity |].
    cbn. repeat split; eauto using extends_reasoning_all.
  - eexists _, (steps (execution this)), [_]. split; [reflexivity |].
    cbn. repeat split; eauto using extends_reasoning_all.
  - eexists _, (steps (execution this)), []. split; [apply markComplete_run |].
    cbn. rewrite app_nil_r.
    repeat split; eauto 8 using extends_reasoning_all.
  - destruct (markFailed_extends error this w) as (l' & Hrun & Hl').
    eexists _, l', []. split; [exact Hrun |].
    cbn. rewrite app_nil_r. repeat split; eauto.
    all: try (right; repeat split; discriminate).
  - exists this, (steps (execution this)), []. split; [reflexivity |].
    rewrite app_nil_r. repeat split; eauto using extends_reasoning_all.
  - exists this, (steps (execution this)), []. split; [reflexivity |].
    rewrite app_nil_r. repeat split; eauto using extends_reasoning_all.
Qed.

(** Induction over the calls of a session: a property of the calls made so
    far, the builder and the world that every call carries over holds at
    the end, and the session gets there without an error. *)
Lemma perform_all_invariant (P : list Call -> XRay -> World -> Prop) :
  (forall (done : list Call) (c : Call) (this this' : XRay) (w w' : World),
      P done this w ->
      perform c this w = (Normal this', w') ->
      P (done ++ [c]) this' w') ->
  forall (cs done : list Call) (this : XRay) (w : World),
    P done this w ->
    exists (this' : XRay) (w' : World),
      perform_all cs this w = (Normal this', w') /\ P (done ++ cs) this' w'.
Proof.
  intros Hstep cs. induction cs as [| c cs IH]; intros done this w HP.
  - exists this, w. rewrite app_nil_r. split; [reflexivity | exact HP].
  - destruct (perform_cases c this w) as (this1 & l1 & x1 & Hrun1 & _).
    destruct (IH (done ++ [c]) this1 _ (Hstep _ _ _ _ _ _ HP Hrun1))
      as (this' & w' & Hrun & HP').
    exists this', w'. rewrite (perform_all_cons _ _ _ _ _ _ Hrun1).
    rewrite <- app_assoc in HP'. split; [exact Hrun | exact HP'].
Qed.

(** In a proof about one call: replace the call by what [perform_cases]
    says of it. *)
Local Ltac one_call Hrun :=
  match type of Hrun with
  | perform ?c ?this ?w = (Normal ?this', ?w') =>
      let this1 := fresh "this1" in
      let l1 := fresh "l1" in
      let extra := fresh "extra" in
      let Hrun1 := fresh "Hrun1" in
      let Hid := fresh "Hid" in
      let Heid := fresh "Heid" in
      let Hname := fresh "Hname" in
      let Hcreated := fresh "Hcreated" in
      let Hsteps := fresh "Hsteps" in
      let Hext := fresh "Hext" in
      let Hextra := fresh "Hextra" in
      let Hclose := fresh "Hclose" in
      let Hsummary := fresh "Hsummary" in
      let Hquiet := fresh "Hquiet" in
      destruct (perform_cases c this w)
        as (this1 & l1 & extra & Hrun1 & Hid & Heid & Hname & Hcreated &
            Hsteps & Hext & Hextra & Hclose & Hsummary & Hquiet);
      rewrite Hrun1 in Hrun; injection Hrun as <- <-
  end.

Lemma dense_snoc (l l' : list XRayStep) (s : XRayStep) :
  dense l -> map index l' = map index l ->
  index s = Z.of_nat (length l) + 1 ->
  dense (l' ++ [s]).
Proof.
  intros Hdense Hmap Hs i x Hi.
  assert (Hlen : length l' = length l).
  { rewrite <- (length_map index l'), Hmap. apply length_map. }
  destruct (decide (i < length l')%nat) as [Hlt | Hge].
  - rewrite lookup_app_l in Hi by exact Hlt.
    assert (Hx : map index l' !! i = Some (index x))
      by (rewrite list_lookup_fmap, Hi; reflexivity).
    rewrite Hmap, list_lookup_fmap in Hx.
    destruct (l !! i) as [y |] eqn:Hy; [| discriminate].
    injection Hx as <-. apply (Hdense i y Hy).
  - rewrite lookup_app_r in Hi by lia.
    destruct (i - length l')%nat as [| k] eqn:Hk; cbn in Hi.
    + injection Hi as <-. rewrite Hs. lia.
    + destruct k; discriminate.
Qed.

Lemma dense_same_indices (l l' : list XRayStep) :
  dense l -> map index l' = map index l -> dense l'.
Proof.
  intros Hdense Hmap i x Hi.
  assert (Hx : map index l' !! i = Some (index x))
    by (rewrite list_lookup_fmap, Hi; reflexivity).
  rewrite Hmap, list_lookup_fmap in Hx.
  destruct (l !! i) as [y |] eqn:Hy; [| discriminate].
  injection Hx as <-. apply (Hdense i y Hy).
Qed.

Lemma session_start (label : string) (supplied : option string)
    (cs : list Call) (w : World) :
  exists (id : string) (now : Z) (w1 : World),
    constructor label supplied w =
      (Normal (mkXRay (mkExecution None id label in_progress [] now
                                   None None None)), w1) /\
    session label supplied cs w =
      perform_all cs (mkXRay (mkExecution None id label in_progress [] now
                                          None None None)) w1.
Proof.
  destruct (constructor_run label supplied w) as (id & now & w1 & Hnew).
  exists id, now, w1. split; [exact Hnew |].
  unfold session, createXRay, bind. rewrite Hnew. reflexivity.
Qed.

(** X1. Whatever the calls of a session and their order, the session
    completes normally, the steps number as many as the calls that record a
    step ([recordStep] and [recordEvaluationStep]), and the step at
    position [i] has index [i + 1]: closing calls, getters and the
    annotation of [markFailed] never disturb the numbering. *)
Theorem session_steps_numbered (label : string) (supplied : option string)
    (cs : list Call) (w : World) :
  exists (this : XRay) (w' : World),
    session label supplied cs w = (Normal this, w') /\
    length (steps (execution this)) = length (List.filter records_step cs) /\
    map index (steps (execution this)) =
      map (fun i : nat => Z.of_nat i + 1)
          (seq 0 (length (List.filter records_step cs))).
Proof.
  destruct (session_start label supplied cs w)
    as (id & now & w1 & _ & ->).
  set (P := fun (done : list Call) (this : XRay) (_ : World) =>
              dense (steps (execution this)) /\
              length (steps (execution this))
                = length (List.filter records_step done)).
  assert (Hstep : forall done c this this' w0 w0',
             P done this w0 -> perform c this w0 = (Normal this', w0') ->
             P (done ++ [c]) this' w0').
  { unfold P. intros done c this this' w0 w0' (Hdense & Hlen) Hrun.
    one_call Hrun.
    assert (Hmap := extends_reasoning_indices _ _ Hext).
    assert (Hl1 : length l1 = length (steps (execution this)))
      by (symmetry; eapply Forall2_length; exact Hext).
    rewrite Hsteps, List.filter_app, !length_app, Hl1, Hlen. cbn [List.filter].
    destruct (records_step c).
    + destruct Hextra as (s & -> & Hs & _). split; [| reflexivity].
      eapply dense_snoc; eauto.
    + subst extra. rewrite app_nil_r. split; [| cbn; lia].
      eapply dense_same_indices; eauto. }
  match goal with
  | |- context [perform_all cs ?fresh w1] =>
      destruct (perform_all_invariant P Hstep cs [] fresh w1)
        as (this & w' & Hrun & Hdense & Hlen)
  end.
  { split; [| reflexivity]. intros i s Hi. destruct i; discriminate. }
  cbn [app] in Hlen.
  exists this, w'. split; [exact Hrun |]. split; [exact Hlen |].
  rewrite <- Hlen. clear Hlen Hrun.
  apply list_eq. intros i. rewrite !list_lookup_fmap.
  destruct (steps (execution this) !! i) as [s |] eqn:Hs; cbn.
  - rewrite (Hdense i s Hs).
    rewrite lookup_seq_lt by (eapply lookup_lt_Some; exact Hs).
    reflexivity.
  - rewrite lookup_seq_ge by (apply lookup_ge_None; exact Hs).
    reflexivity.
Qed.

(** X2. No sequence of calls changes the identity of an execution: its
    storage id, its [executionId], its [name] and its [createdAt] are after
    the calls what they were before. *)
Theorem calls_keep_identity (cs : list Call) (this : XRay) (w : World) :
  exists (this' : XRay) (w' : World),
    perform_all cs this w = (Normal this', w') /\
    _id (execution this') = _id (execution this) /\
    executionId (execution this') = executionId (execution this) /\
    name (execution this') = name (execution this) /\
    createdAt (execution this') = createdAt (execution this).
Proof.
  set (P := fun (_ : list Call) (x : XRay) (_ : World) =>
              _id (execution x) = _id (execution this) /\
              executionId (execution x) = executionId (execution this) /\
              name (execution x) = name (execution this) /\
              createdAt (execution x) = createdAt (execution this)).
  assert (Hstep : forall done c x x' w0 w0',
             P done x w0 -> perform c x w0 = (Normal x', w0') ->
             P (done ++ [c]) x' w0').
  { unfold P. intros done c x x' w0 w0' (H1 & H2 & H3 & H4) Hrun.
    one_call Hrun. repeat split; congruence. }
  destruct (perform_all_invariant P Hstep cs [] this w)
    as (this' & w' & Hrun & HP); [repeat split |].
  exists this', w'. split; [exact Hrun | exact HP].
Qed.

(** X3. The calls after construction read the clock once each, except the
    two getters, which read nothing; none of them draws a random number.
    The world after a sequence of calls is the world before with the clock
    read as many times as there are recording and closing calls. *)
Theorem calls_read_clock_only (cs : list Call) (this : XRay) (w : World) :
  exists this' : XRay,
    perform_all cs this w =
      (Normal this',
       mkWorld (clock w)
               (ticks w + length (List.filter reads_clock cs))
               (random36 w) (draws w)).
Proof.
  set (P := fun (done : list Call) (_ : XRay) (w0 : World) =>
              w0 = mkWorld (clock w)
                           (ticks w + length (List.filter reads_clock done))
                           (random36 w) (draws w)).
  assert (Hstep : forall done c x x' w0 w0',
             P done x w0 -> perform c x w0 = (Normal x', w0') ->
             P (done ++ [c]) x' w0').
  { unfold P. intros done c x x' w0 w0' -> Hrun. one_call Hrun.
    rewrite List.filter_app, length_app. cbn [List.filter].
    destruct (reads_clock c); unfold tick; cbn; f_equal; lia. }
  destruct (perform_all_invariant P Hstep cs [] this w)
    as (this' & w' & Hrun & HP).
  { unfold P. cbn. rewrite Nat.add_0_r. destruct w; reflexivity. }
  exists this'. rewrite Hrun. cbn [app] in HP. rewrite HP. reflexivity.
Qed.

(** X4. Steps are append-only. After any sequence of calls on any builder,
    every step that was there is still at its position, the same in every
    field but for text added at the end of its reasoning; and it is the
    very same step when no [markFailed] is among the calls. *)
Theorem steps_append_only (cs : list Call) (this : XRay) (w : World) :
  exists (this' : XRay) (w' : World),
    perform_all cs this w = (Normal this', w') /\
    (length (steps (execution this)) <= length (steps (execution this')))%nat /\
    (forall (i : nat) (s : XRayStep),
        steps (execution this) !! i = Some s ->
        exists s' : XRayStep,
          steps (execution this') !! i = Some s' /\
          extends_reasoning s s' /\
          ((forall e, ~ In (CallMarkFailed e) cs) -> s' = s)).
Proof.
  set (P := fun (done : list Call) (x : XRay) (_ : World) =>
              exists l extra : list XRayStep,
                steps (execution x) = l ++ extra /\
                Forall2 extends_reasoning (steps (execution this)) l /\
                ((forall e, ~ In (CallMarkFailed e) done) ->
                 l = steps (execution this))).
  assert (Hstep : forall done c x x' w0 w0',
             P done x w0 -> perform c x w0 = (Normal x', w0') ->
             P (done ++ [c]) x' w0').
  { unfold P. intros done c x x' w0 w0' (l & extra0 & Hx & Hl & Hsame) Hrun.
    one_call Hrun. rewrite Hx in Hext.
    apply Forall2_app_inv_l in Hext as (la & lb & Hla & Hlb & ->).
    exists la, (lb ++ extra). split; [rewrite Hsteps, app_assoc; reflexivity |].
    split.
    - eapply Forall2_trans; [| exact Hl | exact Hla].
      apply extends_reasoning_trans.
    - intros Hnone.
      assert (Hl' : l = steps (execution this)).
      { apply Hsame. intros e He. apply (Hnone e). apply in_or_app. now left. }
      destruct Hquiet as [(e & ->) | Hq].
      + exfalso. apply (Hnone e). apply in_or_app. right. now left.
      + rewrite Hx in Hq. apply app_inj_1 in Hq as [Hq _]; [congruence |].
        symmetry. eapply Forall2_length. exact Hla. }
  destruct (perform_all_invariant P Hstep cs [] this w)
    as (this' & w' & Hrun & (l & extra & Hsteps & Hl & Hsame)).
  { exists (steps (execution this)), []. rewrite app_nil_r.
    split; [reflexivity |]. split; [apply extends_reasoning_all | reflexivity]. }
  cbn [app] in Hsame.
  exists this', w'. split; [exact Hrun |]. split.
  - rewrite Hsteps, length_app, <- (Forall2_length _ _ _ Hl). lia.
  - intros i s Hi.
    destruct (Forall2_lookup_l _ _ _ _ _ Hl Hi) as (s' & Hs' & Hss').
    exists s'. split; [| split].
    + rewrite Hsteps. apply lookup_app_l_Some. exact Hs'.
    + exact Hss'.
    + intros Hnone. rewrite (Hsame Hnone) in Hs'. congruence.
Qed.

Lemma steps_append_only_witness :
  exists (this' : XRay) (w' : World),
    perform_all [CallMarkComplete None;
                 CallRecordStep (mkStepArgs "late" [] [] "after" None None)]
                demo_builder demo_world = (Normal this', w') /\
    steps (execution this') !! 0%nat = Some demo_step.
Proof.
  destruct (steps_append_only
              [CallMarkComplete None;
               CallRecordStep (mkStepArgs "late" [] [] "after" None None)]
              demo_builder demo_world)
    as (this' & w' & Hrun & _ & Hkept).
  exists this', w'. split; [exact Hrun |].
  destruct (Hkept 0%nat demo_step eq_refl) as (s' & Hs' & _ & Hsame).
  rewrite Hs'. f_equal. apply Hsame.
  intros e [He | [He | []]]; discriminate.
Defined.

(** X5. In every state a session can reach, a summary, when there is one,
    counts no more steps than the execution has: [summary.totalSteps] is
    the number of steps at the last [markComplete], and steps recorded
    after it are not counted. *)
Theorem session_summary_counts_at_most (label : string)
    (supplied : option string) (cs : list Call) (w : World) :
  exists (this : XRay) (w' : World),
    session label supplied cs w = (Normal this, w') /\
    (forall total : ExecutionSummary,
        summary (execution this) = Some total ->
        0 <= totalSteps total <= Z.of_nat (length (steps (execution this)))).
Proof.
  destruct (session_start label supplied cs w) as (id & now & w1 & _ & ->).
  set (P := fun (_ : list Call) (x : XRay) (_ : World) =>
              forall total : ExecutionSummary,
                summary (execution x) = Some total ->
                0 <= totalSteps total
                  <= Z.of_nat (length (steps (execution x)))).
  assert (Hstep : forall done c x x' w0 w0',
             P done x w0 -> perform c x w0 = (Normal x', w0') ->
             P (done ++ [c]) x' w0').
  { unfold P. intros done c x x' w0 w0' HP Hrun. one_call Hrun.
    intros total Htotal.
    assert (Hl1 : length l1 = length (steps (execution x)))
      by (symmetry; eapply Forall2_length; exact Hext).
    rewrite Hsteps, length_app, Hl1.
    destruct Hsummary as [Hsame | (o & -> & Hnew)].
    - rewrite Hsame in Htotal. specialize (HP total Htotal). lia.
    - rewrite Hnew in Htotal. injection Htotal as <-. cbn. lia. }
  match goal with
  | |- context [perform_all cs ?fresh w1] =>
      destruct (perform_all_invariant P Hstep cs [] fresh w1)
        as (this & w' & Hrun & HP)
  end.
  { intros total Htotal. discriminate. }
  exists this, w'. split; [exact Hrun | exact HP].
Qed.

Lemma session_summary_counts_at_most_witness :
  exists (this : XRay) (w' : World),
    session "Demo" None
            [CallMarkComplete None;
             CallRecordStep (mkStepArgs "late" [] [] "after" None None)]
            demo_world = (Normal this, w') /\
    summary (execution this) = Some (mkSummary 0 None) /\
    0 <= 0 <= Z.of_nat (length (steps (execution this))).
Proof.
  destruct (session_summary_counts_at_most "Demo" None
              [CallMarkComplete None;
               CallRecordStep (mkStepArgs "late" [] [] "after" None None)]
              demo_world)
    as (this & w' & Hrun & Hbound).
  exists this, w'. split; [exact Hrun |].
  assert (Hsum : summary (execution this) = Some (mkSummary 0 None)).
  { vm_compute in Hrun. injection Hrun as <- _. reflexivity. }
  split; [exact Hsum |]. exact (Hbound _ Hsum).
Defined.

Lemma ascending_snoc (ts : list Z) (t : Z) :
  ascending ts -> Forall (fun a => a <= t) ts -> ascending (ts ++ [t]).
Proof.
  intros Hasc Hall i j a b Hij Hi Hj.
  destruct (decide (j < length ts)%nat) as [Hlt | Hge].
  - rewrite lookup_app_l in Hj by lia. rewrite lookup_app_l in Hi by lia.
    exact (Hasc i j a b Hij Hi Hj).
  - rewrite lookup_app_r in Hj by lia.
    destruct (j - length ts)%nat as [| k]; cbn in Hj;
      [injection Hj as <- | destruct k; discriminate].
    destruct (decide (i < length ts)%nat) as [Hilt | Hige].
    + rewrite lookup_app_l in Hi by lia.
      rewrite Forall_lookup in Hall. eapply Hall; eauto.
    + rewrite lookup_app_r in Hi by lia.
      destruct (i - length ts)%nat as [| k]; cbn in Hi;
        [injection Hi as <-; lia | destruct k; discriminate].
Qed.

Lemma constructor_world (label : string) (supplied : option string)
    (w : World) :
  exists (id : string) (w_created : World),
    constructor label supplied w =
      (Normal (mkXRay (mkExecution None id label in_progress []
                                   (current_time w_created)
                                   None None None)), tick w_created) /\
    clock w_created = clock w.
Proof.
  destruct (truthy supplied) eqn:H.
  - destruct supplied as [[| c id'] |]; try discriminate.
    exists (String c id'), w. split; [reflexivity | reflexivity].
  - eexists _, (draw (tick w)).
    split; [apply constructor_generated; exact H | reflexivity].
Qed.

(** X6. With a clock that never goes back, time runs forward in every
    trace: no step is stamped before the execution was created, steps are
    stamped in non-decreasing order, a closed execution was completed no
    earlier than it was created, and its duration is not negative. The
    duration is [completedAt - createdAt] in every case. *)
Theorem session_times_ordered (label : string) (supplied : option string)
    (cs : list Call) (w : World) :
  monotone_clock w ->
  exists (this : XRay) (w' : World),
    session label supplied cs w = (Normal this, w') /\
    Forall (fun t => createdAt (execution this) <= t)
           (map timestamp (steps (execution this))) /\
    ascending (map timestamp (steps (execution this))) /\
    match completedAt (execution this) with
    | Some done =>
        createdAt (execution this) <= done /\
        duration (execution this) = Some (done - createdAt (execution this)) /\
        0 <= done - createdAt (execution this)
    | None => duration (execution this) = None
    end.
Proof.
  intros Hmono.
  destruct (constructor_world label supplied w) as (id & wc & Hnew & Hclock).
  set (P := fun (_ : list Call) (x : XRay) (w0 : World) =>
              clock w0 = clock w /\
              (forall n, (ticks w0 <= n)%nat ->
                         createdAt (execution x) <= clock w n) /\
              Forall (fun t => createdAt (execution x) <= t /\
                               forall n, (ticks w0 <= n)%nat -> t <= clock w n)
                     (map timestamp (steps (execution x))) /\
              ascending (map timestamp (steps (execution x))) /\
              match completedAt (execution x) with
              | Some done =>
                  createdAt (execution x) <= done /\
                  duration (execution x)
                    = Some (done - createdAt (execution x))
              | None => duration (execution x) = None
              end).
  assert (Hstep : forall done c x x' w0 w0',
             P done x w0 -> perform c x w0 = (Normal x', w0') ->
             P (done ++ [c]) x' w0').
  { unfold P.
    intros done c x x' w0 w0' (Hclk & Hcreated0 & Hall & Hasc & Hdone) Hrun.
    one_call Hrun.
    assert (Hticks : (ticks w0 <=
                      ticks (if reads_clock c then tick w0 else w0))%nat)
      by (destruct (reads_clock c); cbn; lia).
    assert (Hnow : createdAt (execution x) <= current_time w0)
      by (unfold current_time; rewrite Hclk; apply Hcreated0; lia).
    rewrite Hsteps, map_app, (extends_reasoning_timestamps _ _ Hext), Hcreated.
    split; [destruct (reads_clock c); [exact Hclk | exact Hclk] |].
    split; [intros n Hn; apply Hcreated0; lia |].
    assert (Hall' : Forall
              (fun t => createdAt (execution x) <= t /\
                        forall n, (ticks (if reads_clock c then tick w0
                                          else w0) <= n)%nat ->
                                  t <= clock w n)
              (map timestamp (steps (execution x)))).
    { eapply Forall_impl; [exact Hall |]. intros t (Ht1 & Ht2).
      split; [exact Ht1 | intros n Hn; apply Ht2; lia]. }
    split; [| split].
    - apply Forall_app. split; [exact Hall' |].
      destruct c; cbn in Hextra; try (subst extra; constructor);
        destruct Hextra as (s & -> & _ & Hts); cbn;
        (constructor; [| constructor]); rewrite Hts;
        (split; [exact Hnow |]); intros n Hn; cbn in Hn;
        unfold current_time; rewrite Hclk; apply Hmono; lia.
    - destruct c; cbn in Hextra; try (subst extra; cbn; rewrite app_nil_r;
                                      exact Hasc);
        destruct Hextra as (s & -> & _ & Hts); cbn;
        (apply ascending_snoc; [exact Hasc |]);
        (eapply Forall_impl; [exact Hall |]); intros t (_ & Ht); cbn beta;
        rewrite Hts; unfold current_time; rewrite Hclk; apply Ht; lia.
    - destruct Hclose as [(_ & Hc & Hd) | (_ & _ & Hc & Hd)].
      + rewrite Hc, Hd. exact Hdone.
      + rewrite Hc, Hd. split; [exact Hnow | reflexivity]. }
  destruct (perform_all_invariant P Hstep cs []
              (mkXRay (mkExecution None id label in_progress []
                                   (current_time wc) None None None))
              (tick wc))
    as (this & w' & Hrun & (_ & _ & Hall & Hasc & Hdone)).
  { unfold P. cbn. split; [exact Hclock |]. split.
    - intros n Hn. unfold current_time. rewrite Hclock. apply Hmono. lia.
    - split; [constructor |]. split; [| reflexivity].
      intros i j a b _ Hi. destruct i; discriminate. }
  exists this, w'. split.
  { unfold session, createXRay, bind. rewrite Hnew. exact Hrun. }
  split; [eapply Forall_impl; [exact Hall |]; intros t (Ht & _); exact Ht |].
  split; [exact Hasc |].
  destruct (completedAt (execution this)) as [done |]; [| exact Hdone].
  destruct Hdone as (Hle & Hd). repeat split; [exact Hle | exact Hd | lia].
Qed.

Lemma session_times_ordered_witness :
  monotone_clock demo_world /\
  exists (this : XRay) (w' : World),
    session "Demo" None
            (map CallRecordStep demo_args ++ [CallMarkComplete None])
            demo_world = (Normal this, w') /\
    ascending (map timestamp (steps (execution this))).
Proof.
  assert (Hmono : monotone_clock demo_world)
    by (intros m n Hmn; cbn; lia).
  split; [exact Hmono |].
  destruct (session_times_ordered "Demo" None
              (map CallRecordStep demo_args ++ [CallMarkComplete None])
              demo_world Hmono)
    as (this & w' & Hrun & _ & Hasc & _).
  exists this, w'. split; [exact Hrun | exact Hasc].
Defined.

(* ===================================================================== *)
(** ** Repeated failure reports *)
(* ===================================================================== *)

(** X7. [markFailed] is not idempotent on the trace: reported twice with
    messages that are not empty, on an execution with at least one step,
    it leaves both annotations on the last step, in the order of the calls,
    and touches no other step. *)
Theorem markFailed_annotations_accumulate (first second : string)
    (this : XRay) (w : World) (l : list XRayStep) (s : XRayStep) :
  first <> EmptyString -> second <> EmptyString ->
  steps (execution this) = l ++ [s] ->
  exists this' : XRay,
    (do failed_once <- markFailed (Some first) this;
     markFailed (Some second) failed_once) w
      = (Normal this', tick (tick w)) /\
    steps (execution this') =
      l ++ [set_reasoning
              (reasoning s +:+ " [ERROR: " +:+ first +:+ "]" +:+
               " [ERROR: " +:+ second +:+ "]") s] /\
    completedAt (execution this') = Some (current_time (tick w)).
Proof.
  intros Hfirst Hsecond Hsteps. unfold bind.
  rewrite (markFailed_annotates first this w l s Hfirst Hsteps).
  erewrite (markFailed_annotates second _ (tick w) l) by (eauto || reflexivity).
  eexists. split; [reflexivity |]. cbn. split; [| reflexivity].
  unfold error_suffix. rewrite !append_assoc. reflexivity.
Qed.

Lemma markFailed_annotations_accumulate_witness :
  exists this' : XRay,
    (do failed_once <- markFailed (Some "boom"%string) demo_builder;
     markFailed (Some "again"%string) failed_once) demo_world
      = (Normal this', tick (tick demo_world)) /\
    map reasoning (steps (execution this'))
      = ["did it [ERROR: boom] [ERROR: again]"%string].
Proof.
  destruct (markFailed_annotations_accumulate "boom" "again" demo_builder
              demo_world [] demo_step)
    as (this' & Hrun & Hsteps & _);
    [discriminate | discriminate | reflexivity |].
  exists this'. split; [exact Hrun |]. rewrite Hsteps. reflexivity.
Defined.

(* ===================================================================== *)
(** ** Generated identifiers *)
(* ===================================================================== *)

Lemma substring_length (s : string) :
  forall n m : nat,
    String.length (String.substring n m s)
      = Nat.min m (String.length s - n).
Proof.
  induction s as [| c s IH]; intros n m.
  - destruct n, m; cbn; lia.
  - destruct n as [| n'].
    + destruct m as [| m']; cbn; [lia |]. rewrite (IH 0%nat m'). lia.
    + cbn. apply IH.
Qed.

(** X8. The random component of a generated identifier is what
    [substr(2, 9)] finds in the rendering of the draw: it has nine
    characters when the rendering has eleven or more, fewer when the
    rendering is shorter, and it is empty (the identifier then ends with
    the underscore) when the rendering has two characters or fewer, as for
    a draw of [0], rendered ["0"]. *)
Theorem generated_id_random_component (label : string) (w : World) :
  exists (this : XRay) (component : string),
    constructor label None w = (Normal this, tick (draw (tick w))) /\
    executionId (execution this) =
      "exec_" +:+ Number_toString (current_time w) +:+ "_" +:+ component /\
    String.length component
      = Nat.min 9 (String.length (current_random36 w) - 2) /\
    ((String.length (current_random36 w) <= 2)%nat ->
     component = EmptyString) /\
    ((11 <= String.length (current_random36 w))%nat ->
     String.length component = 9%nat).
Proof.
  eexists _, (substr (current_random36 w) 2 9).
  split; [apply constructor_generated; reflexivity |].
  split; [reflexivity |].
  assert (Hlen := substring_length (current_random36 w) 2 9).
  unfold substr. split; [exact Hlen |]. split.
  - intros Hshort.
    assert (Hzero : String.length (String.substring 2 9 (current_random36 w))
                    = 0%nat) by lia.
    destruct (String.substring 2 9 (current_random36 w));
      [reflexivity | discriminate].
  - intros Hlong. lia.
Qed.

Lemma generated_id_random_component_witness :
  exists (this : XRay) (component : string),
    constructor "Demo" None
                (mkWorld (clock demo_world) 0 (fun _ => "0"%string) 0)
      = (Normal this,
         tick (draw (tick (mkWorld (clock demo_world) 0
                                   (fun _ => "0"%string) 0)))) /\
    executionId (execution this) = "exec_1704067200000_"%string.
Proof.
  destruct (generated_id_random_component "Demo"
              (mkWorld (clock demo_world) 0 (fun _ => "0"%string) 0))
    as (this & component & Hrun & Hid & _ & Hshort & _).
  exists this, component. split; [exact Hrun |].
  rewrite Hid, (Hshort ltac:(cbn; lia)). vm_compute. reflexivity.
Defined.

Lemma digits_without_underscore (d : Decimal.uint) :
  contains_char "_" (NilEmpty.string_of_uint d) = false.
Proof. induction d; cbn; auto. Qed.

Lemma Number_toString_without_underscore (n : Z) :
  contains_char "_" (Number_toString n) = false.
Proof.
  unfold Number_toString.
  destruct (Z.to_int n) as [d | d]; cbn;
    destruct d; cbn; auto using digits_without_underscore.
Qed.

Lemma Number_toString_inj (m n : Z) :
  Number_toString m = Number_toString n -> m = n.
Proof.
  unfold Number_toString. intros H.
  assert (Hnonnil : forall z : Z,
             Z.to_int z <> Decimal.Pos Decimal.Nil /\
             Z.to_int z <> Decimal.Neg Decimal.Nil).
  { intros [| p | p]; cbn; split; try discriminate;
      intros [= Hp]; exact (Unsigned.to_uint_nonnil p Hp). }
  apply DecimalZ.to_int_inj.
  assert (Hsome : Some (Z.to_int m) = Some (Z.to_int n)).
  { rewrite <- (NilZero.isi (Z.to_int m)) by apply Hnonnil.
    rewrite <- (NilZero.isi (Z.to_int n)) by apply Hnonnil.
    rewrite H. reflexivity. }
  congruence.
Qed.

(** A text is cut in one way only at the first occurrence of a
    character. *)
Lemma cut_at_first_unique (c : ascii) (a b x y : string) :
  contains_char c a = false -> contains_char c b = false ->
  a +:+ String c x = b +:+ String c y -> a = b /\ x = y.
Proof.
  revert b. induction a as [| ca a IH]; intros [| cb b] Ha Hb Heq.
  - injection Heq as ->. split; reflexivity.
  - rewrite append_cons in Heq. injection Heq as -> _.
    cbn in Hb. rewrite Ascii.eqb_refl in Hb. discriminate.
  - rewrite append_cons in Heq. injection Heq as -> _.
    cbn in Ha. rewrite Ascii.eqb_refl in Ha. discriminate.
  - rewrite !append_cons in Heq. injection Heq as -> Heq.
    cbn in Ha, Hb. apply orb_false_iff in Ha as [_ Ha].
    apply orb_false_iff in Hb as [_ Hb].
    destruct (IH b Ha Hb Heq) as [-> ->]. split; reflexivity.
Qed.

(** X9. Two generated identifiers are equal only when both their clock
    readings and their random components are: executions created at
    different clock readings get different identifiers whatever was drawn,
    and at the same reading the identifiers collide exactly when the
    random components do. *)
Theorem generated_ids_equal_iff (label1 label2 : string) (w1 w2 : World) :
  exists (this1 this2 : XRay),
    constructor label1 None w1 = (Normal this1, tick (draw (tick w1))) /\
    constructor label2 None w2 = (Normal this2, tick (draw (tick w2))) /\
    (executionId (execution this1) = executionId (execution this2) <->
     current_time w1 = current_time w2 /\
     substr (current_random36 w1) 2 9 = substr (current_random36 w2) 2 9).
Proof.
  eexists _, _.
  split; [apply constructor_generated; reflexivity |].
  split; [apply constructor_generated; reflexivity |].
  cbn [execution executionId]. split.
  - intros Heq.
    change ("exec_" +:+ ?x) with (String "e" (String "x" (String "e"
             (String "c" (String "_" x))))) in Heq.
    injection Heq as Heq.
    apply cut_at_first_unique in Heq
      as [Htime Hrandom]; auto using Number_toString_without_underscore.
    split; [apply Number_toString_inj; exact Htime | exact Hrandom].
  - intros [-> ->]. reflexivity.
Qed.

Lemma generated_ids_equal_iff_witness :
  exists (this1 this2 : XRay),
    constructor "Demo" None demo_world
      = (Normal this1, tick (draw (tick demo_world))) /\
    constructor "Demo" None (tick demo_world)
      = (Normal this2, tick (draw (tick (tick demo_world)))) /\
    executionId (execution this1) <> executionId (execution this2).
Proof.
  destruct (generated_ids_equal_iff "Demo" "Demo" demo_world (tick demo_world))
    as (this1 & this2 & Hrun1 & Hrun2 & Hiff).
  exists this1, this2. split; [exact Hrun1 |]. split; [exact Hrun2 |].
  intros Heq. apply Hiff in Heq as [Htime _]. vm_compute in Htime.
  discriminate.
Defined.

(* ===================================================================== *)
(** ** The keyword generator *)
(* ===================================================================== *)

Lemma split_char_pieces (sep : ascii) (s : string) :
  exists (piece : string) (pieces : list string),
    split_char sep s = piece :: pieces.
Proof.
  destruct s as [| c s]; cbn; [eauto |].
  destruct (Ascii.eqb c sep); [eauto |].
  destruct (split_char sep s); eauto.
Qed.

Lemma split_char_free (sep : ascii) (s : string) :
  Forall (fun piece => contains_char sep piece = false) (split_char sep s).
Proof.
  induction s as [| c s IH]; cbn.
  - constructor; [reflexivity | constructor].
  - destruct (Ascii.eqb c sep) eqn:Hc.
    + constructor; [reflexivity | exact IH].
    + destruct (split_char sep s) as [| piece pieces].
      * constructor; [cbn; rewrite Hc; reflexivity | constructor].
      * inversion IH as [| ? ? Hpiece Hpieces]; subst.
        constructor; [cbn; rewrite Hc, Hpiece; reflexivity | exact Hpieces].
Qed.

Lemma split_char_of_free (sep : ascii) (s : string) :
  contains_char sep s = false -> split_char sep s = [s].
Proof.
  induction s as [| c s IH]; cbn; [reflexivity |].
  intros H. apply orb_false_iff in H as [Hc Hs].
  rewrite Hc, (IH Hs). reflexivity.
Qed.

Lemma split_char_append (sep : ascii) (s rest : string) :
  contains_char sep s = false ->
  split_char sep (s +:+ String sep rest) = s :: split_char sep rest.
Proof.
  induction s as [| c s IH]; intros H.
  - change (EmptyString +:+ String sep rest) with (String sep rest).
    cbn [split_char]. rewrite Ascii.eqb_refl. reflexivity.
  - cbn in H. apply orb_false_iff in H as [Hc Hs].
    rewrite append_cons. cbn [split_char]. rewrite Hc, (IH Hs). reflexivity.
Qed.

(** Joining words that hold no separator and splitting again gives the
    words back. *)
Lemma split_char_join (sep : ascii) (items : list string) :
  items <> [] ->
  Forall (fun item => contains_char sep item = false) items ->
  split_char sep (join (String sep EmptyString) items) = items.
Proof.
  induction items as [| item rest IH]; intros Hne Hfree; [congruence |].
  inversion Hfree as [| ? ? Hitem Hrest]; subst.
  destruct rest as [| item' rest'].
  - cbn. apply split_char_of_free. exact Hitem.
  - change (join (String sep EmptyString) (item :: item' :: rest'))
      with (item +:+ String sep (join (String sep EmptyString)
                                      (item' :: rest'))).
    rewrite split_char_append by exact Hitem.
    rewrite IH by (congruence || exact Hrest). reflexivity.
Qed.

Lemma filter_Boolean_truthy (items : list (option string)) :
  Forall (fun item => item <> EmptyString) (filter_Boolean items).
Proof.
  induction items as [| [[| c s] |] rest IH]; cbn; auto.
Qed.

Lemma filter_Boolean_free (sep : ascii) (items : list (option string)) :
  Forall (fun item => forall s, item = Some s -> contains_char sep s = false)
         items ->
  Forall (fun s => contains_char sep s = false) (filter_Boolean items).
Proof.
  induction 1 as [| item rest Hitem _ IH]; cbn; [constructor |].
  destruct (truthy item) eqn:Ht; [| exact IH].
  destruct item as [s |]; [| discriminate].
  constructor; [apply Hitem; reflexivity | exact IH].
Qed.

Lemma word_free (sep : ascii) (s : string) (i : nat) (word : string) :
  split_char sep s !! i = Some word -> contains_char sep word = false.
Proof.
  intros Hi. pose proof (split_char_free sep s) as Hall.
  rewrite Forall_lookup in Hall. exact (Hall i word Hi).
Qed.



(** X11. Whatever the spacing of the title (leading, trailing or repeated
    spaces), each keyword is made of non-empty words separated by single
    spaces: cut at the spaces, a keyword has no empty piece. *)
Theorem generateKeywords_well_spaced (toLowerCase : string -> string)
    (title : string) :
  Forall (fun keyword =>
            Forall (fun piece => piece <> EmptyString)
                   (split_char " " keyword))
         (generateKeywords toLowerCase title).
Proof.
  unfold generateKeywords.
  set (words := split_char " " (toLowerCase title)).
  assert (Hword : forall i s,
             words !! i = Some s -> contains_char " " s = false)
    by (intros i s; apply word_free).
  constructor; [| constructor; [| constructor]].
  - change " "%string with (String " " EmptyString).
    rewrite split_char_join.
    + apply filter_Boolean_truthy.
    + destruct (words !! 0%nat) as [[| c0 w0] |];
        destruct (words !! 1%nat) as [[| c1 w1] |]; discriminate.
    + apply filter_Boolean_free.
      repeat constructor; try (intros s [= <-]; reflexivity); eauto.
  - assert (Hflat :
        join " " (filter_Boolean [Some "insulated"%string;
                                  Some "water bottle"%string;
                                  words !! 2%nat])
        = join " " (filter_Boolean [Some "insulated"%string;
                                    Some "water"%string;
                                    Some "bottle"%string;
                                    words !! 2%nat]))
      by (destruct (words !! 2%nat) as [[| c2 w2] |]; reflexivity).
    rewrite Hflat. change " "%string with (String " " EmptyString).
    rewrite split_char_join.
    + apply filter_Boolean_truthy.
    + discriminate.
    + apply filter_Boolean_free.
      repeat constructor; try (intros s [= <-]; reflexivity); eauto.
Qed.

(* ===================================================================== *)
(** ** The last closing call wins *)
(* ===================================================================== *)

(** X12. The status and the summary of an execution depend on the calls
    only through the closing calls and the number of steps recorded before
    them: the status is that of the last closing call (in progress when
    there is none), and the summary is the one of the last [markComplete],
    with the outcome given to it and the number of steps recorded before
    it, whatever was recorded or reported as failed afterwards. *)
Theorem status_and_summary_follow_calls (cs : list Call) :
  forall (this : XRay) (w : World),
  exists (this' : XRay) (w' : World),
    perform_all cs this w = (Normal this', w') /\
    (status (execution this'), summary (execution this')) =
      closing_after cs (length (steps (execution this)))
                    (status (execution this)) (summary (execution this)).
Proof.
  induction cs as [| c cs IH]; intros this w.
  - exists this, w. split; reflexivity.
  - assert (Hone : exists (this1 : XRay) (w1 : World),
               perform c this w = (Normal this1, w1) /\
               closing_after [c] (length (steps (execution this)))
                             (status (execution this))
                             (summary (execution this))
                 = (status (execution this1), summary (execution this1)) /\
               length (steps (execution this1))
                 = (if records_step c
                    then S (length (steps (execution this)))
                    else length (steps (execution this)))).
    { destruct c as [a | params | o | error | |].
      - eexists _, _. split; [reflexivity |]. cbn.
        rewrite length_app. cbn. split; [reflexivity | lia].
      - eexists _, _. split; [reflexivity |]. cbn.
        rewrite length_app. cbn. split; [reflexivity | lia].
      - eexists _, _. split; [apply markComplete_run |]. cbn.
        split; reflexivity.
      - destruct (markFailed_run error this w) as (l' & Hrun & Hlen & _).
        eexists _, _. split; [exact Hrun |]. cbn.
        split; [reflexivity | exact Hlen].
      - eexists _, _. split; [reflexivity |]. cbn. split; reflexivity.
      - eexists _, _. split; [reflexivity |]. cbn. split; reflexivity. }
    destruct Hone as (this1 & w1 & Hrun1 & Hclose1 & Hlen1).
    destruct (IH this1 w1) as (this' & w' & Hrun & Hclose).
    exists this', w'. rewrite (perform_all_cons _ _ _ _ _ _ Hrun1).
    split; [exact Hrun |]. rewrite Hclose, Hlen1.
    destruct c; cbn in Hclose1 |- *; injection Hclose1 as <- <-; reflexivity.
Qed.
